(** * gitgraph: commit cache, weekly aggregation, axis ticks, file names

    A shallow embedding of [main.go] of kardianos/gitgraph and the
    properties of its cache merge ([FileType.Load]), fetch policy ([run]),
    weekly bucketing and tick generation ([display]) and file-name
    cleaning ([cleanFilename]). *)

From Stdlib Require Import ZArith QArith Qround Lia String Ascii.
From Stdlib Require Import Floats.SpecFloat.
From stdpp Require Import gmap strings list fin_maps sorting.

Local Open Scope Z_scope.

(** ** Go values *)

(** [error]: only the identity of an error matters here. *)
Definition error := string.

(** A Go call either returns or panics (a nil dereference, a negative
    length given to [make]). *)
Inductive outcome (A : Type) : Type :=
| Returned (a : A)
| Panicked.
Arguments Returned {A} a.
Arguments Panicked {A}.

(** [int64] arithmetic wraps around. *)
Definition int64_wrap (z : Z) : Z := (z + 2 ^ 63) mod 2 ^ 64 - 2 ^ 63.

(** [time.Time] without a monotonic clock reading (the commit times come
    from the JSON cache or from the history provider, which never carry
    one): the seconds since January 1 of year 1, 00:00:00 UTC, an [int64],
    and the nanoseconds within that second, in [0, 999999999]. *)
Record Time : Type := mkTime { sec : Z; nsec : Z }.

(** [unixToInternal = (1969*365 + 1969/4 - 1969/100 + 1969/400) * secondsPerDay] *)
Definition unixToInternal : Z :=
  (1969 * 365 + 1969 / 4 - 1969 / 100 + 1969 / 400) * 86400.

(** [t.Unix()], that is [t.sec() + internalToUnix] in [int64]. *)
Definition Unix (t : Time) : Z := int64_wrap (sec t - unixToInternal).

(** [time.Unix(s, 0)] *)
Definition unixTime (s : Z) : Time := mkTime (s + unixToInternal) 0.

(** [t.Before(u)]: when one of the two has no monotonic reading, the wall
    clock instants are compared. *)
Definition Before (t u : Time) : bool :=
  (sec t <? sec u) || ((sec t =? sec u) && (nsec t <? nsec u)).

(** [type chart struct { Name string; Commits []time.Time }] *)
Record chart : Type := mkChart { Name : string; Commits : list Time }.

(** [type FileType map[string]*chart].  The configured table [urlLookup]
    holds one freshly allocated [chart] per key, none of them nil and no
    two shared, so the table is a finite map from the key to the chart the
    pointer designates; an assignment through the pointer is an update of
    the map at that key. *)
Abbreviation FileType := (gmap string chart).

(** What [json.Decoder.Decode] leaves in the local [store]: a JSON [null]
    under a key decodes to a nil [*chart], [None] here. *)
Abbreviation Snapshot := (gmap string (option chart)).

(** ** The cache file and [Load] *)

(** What [os.Open] and [Decode] find at the cache location. *)
Inductive CacheFile : Type :=
| FileNotExist                      (* os.Open fails and os.IsNotExist(err) *)
| FileOpenError (e : error)         (* any other failure of os.Open *)
| FileDecodeError (e : error)       (* opened, but Decode fails *)
| FileDecoded (store : Snapshot).   (* opened and decoded *)

(** The [for key, ch := range ft] loop of [Load] (lines 63-69).  Go ranges
    over the keys in an unspecified order, given here as [order]; a key
    that is not in [ft] is never visited.  [None] is the panic of
    [v.Commits] on a nil [v]. *)
Fixpoint Load_range (order : list string) (store : Snapshot) (ft : FileType)
  : option FileType :=
  match order with
  | [] => Some ft
  | key :: rest =>
      match ft !! key with
      | None => Load_range rest store ft
      | Some ch =>
          match store !! key with
          | None => Load_range rest store ft                       (* !ok: continue *)
          | Some None => None                                      (* v.Commits, v nil *)
          | Some (Some v) =>
              Load_range rest store
                (<[key := {| Name := Name ch; Commits := Commits v |}]> ft)
          end
      end
  end.

(** [func (ft FileType) Load(location string) error]: the returned error
    ([None] is [nil]) and the table afterwards. *)
Definition Load (order : list string) (ft : FileType) (file : CacheFile)
  : outcome (option error * FileType) :=
  match file with
  | FileNotExist => Returned (None, ft)
  | FileOpenError e => Returned (Some e, ft)
  | FileDecodeError e => Returned (Some e, ft)
  | FileDecoded store =>
      match Load_range order store ft with
      | Some ft' => Returned (None, ft')
      | None => Panicked
      end
  end.

(** ** [Save] *)

(** What the operating system and the JSON encoder answer to [Save]: the
    errors, if any, of [os.Create], of [Encode] for the table it is given,
    and of [Close]. *)
Record SaveEnv : Type := mkSaveEnv {
  create_result : option error;
  encode_result : FileType → option error;
  close_result : option error
}.

(** What [Save] does to the file. *)
Inductive file_event : Type :=
| FileCreate                  (* os.Create(location) *)
| FileEncode (ft : FileType)  (* c.Encode(ft) *)
| FileClose.                  (* f.Close() *)

(** [func (ft FileType) Save(location string) error] (lines 72-87): the
    calls it makes and the error it returns.  The file is closed before
    the error of [Encode] is looked at. *)
Definition Save (env : SaveEnv) (ft : FileType) : list file_event * option error :=
  match create_result env with
  | Some e => ([FileCreate], Some e)
  | None =>
      let err := encode_result env ft in
      let cerr := close_result env in
      ([FileCreate; FileEncode ft; FileClose],
       match err with
       | Some e => Some e
       | None =>
           match cerr with
           | Some e => Some e
           | None => None
           end
       end)
  end.

(** [var urlLookup = FileType{...}] *)
Definition urlLookup : FileType :=
  <["https://github.com/linuxdeepin/dde-daemon"%string := mkChart "DDE Daemon" []]>
  (<["https://github.com/linuxdeepin/dde-dock"%string := mkChart "DDE Dock" []]>
  (<["https://github.com/linuxdeepin/dde-session-shell"%string :=
       mkChart "DDE Session Shell" []]> ∅)).

(** An order in which Go may range over a map: its keys, each once. *)
Definition range_order {K} `{Countable K} {V} (m : gmap K V) (order : list K) : Prop :=
  order ≡ₚ elements (dom m).

(** The entries [for k, v := range m] visits when it takes the keys in
    the order [order]. *)
Definition range_entries {K} `{Countable K} {V} (m : gmap K V) (order : list K)
  : list (K * V) :=
  omap (λ k, (λ v, (k, v)) <$> m !! k) order.

(** ** float64 *)

(** IEEE 754 binary64 values and operations, rounding to nearest, ties to
    even. *)
Abbreviation float64 := spec_float.
Definition f64_prec : Z := 53.
Definition f64_emax : Z := 1024.
Definition f64_add : float64 → float64 → float64 := SFadd f64_prec f64_emax.
Definition f64_sub : float64 → float64 → float64 := SFsub f64_prec f64_emax.
Definition f64_mul : float64 → float64 → float64 := SFmul f64_prec f64_emax.
Definition f64_div : float64 → float64 → float64 := SFdiv f64_prec f64_emax.
Definition f64_lt : float64 → float64 → bool := SFltb.

(** [float64(z)] for an integer [z] *)
Definition f64_of_int (z : Z) : float64 := binary_normalize f64_prec f64_emax z 0 false.

(** [int(f)]: the fraction is discarded (truncation towards zero).  When
    the value does not fit the 64-bit [int], or [f] is an infinity or a
    NaN, Go leaves the result to the implementation: [None]. *)
Definition int_of_f64 (f : float64) : option Z :=
  match f with
  | S754_zero _ => Some 0
  | S754_finite s m e =>
      let v := if 0 <=? e then Z.pos m * 2 ^ e else Z.pos m / 2 ^ (- e) in
      let z := if s then - v else v in
      if (- 2 ^ 63 <=? z) && (z <? 2 ^ 63) then Some z else None
  | _ => None
  end.

(** ** [display]: weekly aggregation *)

(** [const GroupSize = 60 * 60 * 24 * 7] *)
Definition GroupSize : Z := 60 * 60 * 24 * 7.

(** Lines 161-162: [a := dt.Unix() / GroupSize; b := a * GroupSize].  Go's
    integer division truncates towards zero ([Z.quot]). *)
Definition bucket (dt : Time) : Z :=
  let a := Z.quot (Unix dt) GroupSize in
  int64_wrap (a * GroupSize).

(** One round of the loop of lines 157-164 on [agg : map[int64]int64]; a
    missing key reads as 0. *)
Definition agg_step (now : Time) (agg : gmap Z Z) (dt : Time) : gmap Z Z :=
  if Before now dt then agg
  else
    let b := bucket dt in
    <[b := int64_wrap (default 0 (agg !! b) + 1)]> agg.

Definition aggregate (now : Time) (commits : list Time) : gmap Z Z :=
  foldl (agg_step now) ∅ commits.

(** [plotter.XY] *)
Record XY : Type := mkXY { X : float64; Y : float64 }.

(** One round of the loop of lines 167-176; the state is [(data, maxY)]. *)
Definition plot_step (st : list XY * float64) (kv : Z * Z) : list XY * float64 :=
  let '(data, maxY) := st in
  let fy := f64_of_int kv.2 in
  let maxY' := if f64_lt maxY fy then fy else maxY in
  (data ++ [mkXY (f64_of_int kv.1) fy], maxY').

Definition plot_loop (entries : list (Z * Z)) : list XY * float64 :=
  foldl plot_step ([], S754_zero false) entries.

(** [sort.Slice(data, less)]: the slice ends up a permutation of itself
    in which no element is [less] than one before it.  The points of
    [display] come from different keys of a map; while their [X] are
    different numbers that permutation is unique ([sorted_keys_unique]),
    and an insertion sort computes it. *)
Fixpoint sort_insert {A} (less : A → A → bool) (a : A) (l : list A) : list A :=
  match l with
  | [] => [a]
  | b :: l' => if less b a then b :: sort_insert less a l' else a :: l
  end.

Definition sort_slice {A} (less : A → A → bool) (l : list A) : list A :=
  foldr (sort_insert less) [] l.

Definition less_X (a b : XY) : bool := f64_lt (X a) (X b).

(** Lines 153-180 of [display]: the sorted points handed to the plotter
    and the value given to [p.Y.Max].  [order] is the order in which the
    loop of line 167 ranges over [agg]. *)
Definition display_data (now : Time) (commits : list Time) (order : list Z)
  : list XY * float64 :=
  let agg := aggregate now commits in
  let '(data, maxY) := plot_loop (range_entries agg order) in
  (sort_slice less_X data, maxY).

(** ** [display]: axis ticks *)

(** [plot.Tick] *)
Record Tick : Type := mkTick { Value : float64; Label : string }.

Definition GroupSizeF : float64 := f64_of_int GroupSize.

(** The body of the loop of lines 185-194 at index [i].  The product and
    the sum are rounded one after the other; a compiler that fuses them
    gives the same value whenever the product is exact, as it is while
    it stays below 2^53. *)
Definition tick_at (min : float64) (i : Z) : Tick :=
  let label := if Z.rem i 13 =? 0 then "|"%string else ""%string in
  mkTick (f64_add min (f64_mul GroupSizeF (f64_of_int i))) label.

(** The [plot.TickerFunc] of lines 183-196.  [None]: the length
    [int((max-min)/GroupSize)] is implementation dependent; [Panicked]:
    [make] is given a negative length. *)
Definition Ticker (min max : float64) : option (outcome (list Tick)) :=
  match int_of_f64 (f64_div (f64_sub max min) GroupSizeF) with
  | None => None
  | Some n =>
      if n <? 0 then Some Panicked
      else Some (Returned (tick_at min <$> seqZ 0 n))
  end.

(** ** [cleanFilename] *)

(** [strings.NewReplacer(" ", "_", ":", "-", "\\", "-", "/", "-")]: all
    the old and new strings are one byte long. *)
Definition cleaner : list (ascii * ascii) :=
  [(" ", "_"); (":", "-"); ("\", "-"); ("/", "-")]%char.

(** An old string is looked up in argument order. *)
Fixpoint replace_byte (table : list (ascii * ascii)) (c : ascii) : ascii :=
  match table with
  | [] => c
  | (old, new) :: rest => if Ascii.eqb c old then new else replace_byte rest c
  end.

(** [Replacer.Replace] *)
Fixpoint Replace (table : list (ascii * ascii)) (s : string) : string :=
  match s with
  | EmptyString => EmptyString
  | String c s' => String (replace_byte table c) (Replace table s')
  end.

Definition cleanFilename (name : string) : string := Replace cleaner name.

(** ** [run] *)

(** What a run does outside its own memory, in order. *)
Inductive event : Type :=
| EvClone (u : string)                 (* git.Clone for the URL [u] *)
| EvSave (ft : FileType)               (* urlLookup.Save, writing [ft] *)
| EvDisplay (u : string) (ch : chart). (* display of the chart under [u] *)

(** The collaborators of a run.  [history u] is what the history provider
    does for [u] (lines 112-133): the commit times [ForEach] appended
    before it stopped and the error, if any, of [Clone], [Head], [Log] or
    [ForEach].  [save_file] is what [Save] returns for the table it
    writes, [clock] the [time.Now()] of a [display], and [plot_save]
    stands for the gonum plotter (lines 200-218), given the title, the
    file name, the points and [p.Y.Max]; the tick marker it is given is
    always the same, see [Ticker]. *)
Record World : Type := mkWorld {
  cache_file : CacheFile;
  history : string → list Time * option error;
  save_file : FileType → option error;
  clock : string → Time;
  plot_save : string → string → list XY → float64 → option error
}.

(** The orders in which the [range] loops of a run visit their maps. *)
Record Schedule : Type := mkSchedule {
  load_order : list string;
  fetch_order : list string;
  display_order : list string;
  agg_order : string → list Z
}.

(** The state a run threads through its loops. *)
Record RunState : Type := mkRunState {
  table : FileType;
  updated : bool;
  trace : list event
}.

(** Appends an event to the trace. *)
Definition emit (e : event) (st : RunState) : RunState :=
  mkRunState (table st) (updated st) (trace st ++ [e]).

(** The loop of lines 107-135, which takes the keys in the order [order]
    (a key the table lacks is not visited).  The result is the state when
    the loop is left and the error it returns with, if any. *)
Fixpoint fetch_range (w : World) (order : list string) (st : RunState)
  : RunState * option error :=
  match order with
  | [] => (st, None)
  | u :: rest =>
      match table st !! u with
      | None => fetch_range w rest st
      | Some ch =>
          if (0 <? Z.of_nat (length (Commits ch))) then fetch_range w rest st
          else
            let st1 := emit (EvClone u) st in
            let '(times, err) := history w u in
            let ch' := {| Name := Name ch; Commits := Commits ch ++ times |} in
            let st2 := mkRunState (<[u := ch']> (table st1)) (updated st1) (trace st1) in
            match err with
            | Some e => (st2, Some e)
            | None => fetch_range w rest (mkRunState (table st2) true (trace st2))
            end
      end
  end.

(** [func display(ch *chart) error], called for the chart under [u]. *)
Definition display (w : World) (s : Schedule) (u : string) (ch : chart) : option error :=
  let '(data, maxY) := display_data (clock w u) (Commits ch) (agg_order s u) in
  plot_save w (Name ch) (cleanFilename (Name ch) ++ ".png")%string data maxY.

(** The loop of lines 143-148. *)
Fixpoint display_range (w : World) (s : Schedule) (order : list string) (st : RunState)
  : RunState * option error :=
  match order with
  | [] => (st, None)
  | u :: rest =>
      match table st !! u with
      | None => display_range w s rest st
      | Some ch =>
          let st1 := emit (EvDisplay u ch) st in
          match display w s u ch with
          | Some e => (st1, Some e)
          | None => display_range w s rest st1
          end
      end
  end.

(** [func run(ctx context.Context) error] on the table [config]: what it
    did and what it returned. *)
Definition run_on (config : FileType) (w : World) (s : Schedule)
  : list event * outcome (option error) :=
  match Load (load_order s) config (cache_file w) with
  | Panicked => ([], Panicked)
  | Returned (Some e, _) => ([], Returned (Some e))
  | Returned (None, ft) =>
      let '(st1, err1) := fetch_range w (fetch_order s) (mkRunState ft false []) in
      match err1 with
      | Some e => (trace st1, Returned (Some e))
      | None =>
          let '(st2, err2) :=
            if updated st1
            then (emit (EvSave (table st1)) st1, save_file w (table st1))
            else (st1, None) in
          match err2 with
          | Some e => (trace st2, Returned (Some e))
          | None =>
              let '(st3, err3) := display_range w s (display_order s) st2 in
              (trace st3, Returned err3)
          end
      end
  end.

(** [run] works on the package variable [urlLookup]. *)
Definition run : World → Schedule → list event * outcome (option error) :=
  run_on urlLookup.

(** The table as [Load] leaves it when it returns [nil]. *)
Definition loaded (config : FileType) (w : World) (s : Schedule) (ft : FileType) : Prop :=
  Load (load_order s) config (cache_file w) = Returned (None, ft).

(** The history provider was called for [u]. *)
Definition cloned (u : string) (tr : list event) : Prop := EvClone u ∈ tr.

(** [Save] was called. *)
Definition saved (tr : list event) : Prop := ∃ ft, EvSave ft ∈ tr.

(** The collaborators [w] with [Save] as the source has it. *)
Definition with_Save (env : SaveEnv) (w : World) : World :=
  mkWorld (cache_file w) (history w) (λ ft, (Save env ft).2) (clock w) (plot_save w).

(** * Vocabulary of the statements *)

(** ** Counting and merging *)

(** The entry [Load] leaves under a key it visits. *)
Definition merged (store : Snapshot) (k : string) (ch : chart) : chart :=
  match store !! k with
  | Some (Some v) => {| Name := Name ch; Commits := Commits v |}
  | _ => ch
  end.

(** A commit is counted in the bucket [b] when it is not after [now] and
    [b] is its bucket. *)
Definition counted (now : Time) (b : Z) (dt : Time) : bool :=
  negb (Before now dt) && (bucket dt =? b).

(** The number of commits counted in the bucket [b]. *)
Definition count_in (now : Time) (commits : list Time) (b : Z) : Z :=
  Z.of_nat (length (filter (λ dt, counted now b dt = true) commits)).

(** The bucket key as the specification words it:
    [floor(epoch_seconds(t) / W) * W]. *)
Definition spec_bucket (dt : Time) : Z := Unix dt / GroupSize * GroupSize.


(** The point of a bucket start and its count, both converted as in
    lines 168-175. *)
Definition point (kv : Z * Z) : XY := mkXY (f64_of_int kv.1) (f64_of_int kv.2).

(** The largest of the counts, 0 when there is none. *)
Definition max_count (l : list Z) : Z := foldl Z.max 0 l.

(** The order [less_X] induces on the integer pairs. *)
Definition less_key (p q : Z * Z) : bool := p.1 <? q.1.

(** The sum of the counts of an aggregation map. *)
Definition total (agg : gmap Z Z) : Z := map_fold (λ _ c acc, c + acc) 0 agg.

(** ** Runs *)

(** [ft] has an entry without commits under [u]: the test of line 108
    fails. *)
Definition needs_fetch (ft : FileType) (u : string) : bool :=
  match ft !! u with
  | Some ch => bool_decide (Commits ch = [])
  | None => false
  end.

(** An entry once the loop of lines 107-135 has passed it without error:
    an entry without commits has those of the history provider. *)
Definition fetched (w : World) (u : string) (ch : chart) : chart :=
  if decide (Commits ch = []) then {| Name := Name ch; Commits := (history w u).1 |}
  else ch.

(** The table when the fetch loop has gone through [order] without
    error. *)
Definition after_fetch (w : World) (order : list string) (ft : FileType) : FileType :=
  map_imap (λ u ch, Some (if decide (u ∈ order) then fetched w u ch else ch)) ft.

(** The identifiers a trace clones, in order. *)
Definition clones (tr : list event) : list string :=
  omap (λ ev, match ev with EvClone u => Some u | _ => None end) tr.

(** The identifiers a trace displays, in order. *)
Definition displayed (tr : list event) : list string :=
  omap (λ ev, match ev with EvDisplay u _ => Some u | _ => None end) tr.

(** The display events of the entries of [ft] under the keys [order]. *)
Definition displays (ft : FileType) (order : list string) : list event :=
  omap (λ u, EvDisplay u <$> ft !! u) order.

(** The error, if any, of the call an event stands for. *)
Definition failed (w : World) (s : Schedule) (ev : event) : option error :=
  match ev with
  | EvClone u => (history w u).2
  | EvSave f => save_file w f
  | EvDisplay u ch => display w s u ch
  end.

(** The clones [us] were needed and all succeeded, and [sv] is what was
    saved after them without error: the table after the fetch loop when
    there was a clone, nothing otherwise. *)
Definition fetched_and_saved (w : World) (s : Schedule) (ft : FileType)
    (us : list string) (sv : list FileType) : Prop :=
  (∀ u, u ∈ us → needs_fetch ft u = true ∧ (history w u).2 = None) ∧
  (NoDup (fetch_order s) →
   us = filter (λ u, needs_fetch ft u = true) (fetch_order s)) ∧
  sv = (if decide (us = []) then [] else [after_fetch w (fetch_order s) ft]) ∧
  (∀ f, f ∈ sv → save_file w f = None).

(** The four ways a run ends once [Load] has returned nil with the table
    [ft]: at the first history that fails, at a [Save] that fails, at the
    first [display] that fails, or after the last [display]. *)
Inductive ends (w : World) (s : Schedule) (ft : FileType)
  : list event * outcome (option error) → Prop :=
| ends_fetch_error us u e :
    (∀ u', u' ∈ us → needs_fetch ft u' = true ∧ (history w u').2 = None) →
    needs_fetch ft u = true →
    (history w u).2 = Some e →
    ends w s ft ((EvClone <$> us) ++ [EvClone u], Returned (Some e))
| ends_save_error us e :
    us ≠ [] →
    (∀ u', u' ∈ us → needs_fetch ft u' = true ∧ (history w u').2 = None) →
    save_file w (after_fetch w (fetch_order s) ft) = Some e →
    ends w s ft
      ((EvClone <$> us) ++ [EvSave (after_fetch w (fetch_order s) ft)], Returned (Some e))
| ends_display_error us sv pre u ch post e :
    fetched_and_saved w s ft us sv →
    displays (after_fetch w (fetch_order s) ft) (display_order s) =
      pre ++ [EvDisplay u ch] ++ post →
    (∀ ev, ev ∈ pre → failed w s ev = None) →
    display w s u ch = Some e →
    ends w s ft
      ((EvClone <$> us) ++ (EvSave <$> sv) ++ pre ++ [EvDisplay u ch], Returned (Some e))
| ends_completed us sv :
    fetched_and_saved w s ft us sv →
    (∀ ev, ev ∈ displays (after_fetch w (fetch_order s) ft) (display_order s) →
       failed w s ev = None) →
    ends w s ft
      ((EvClone <$> us) ++ (EvSave <$> sv)
         ++ displays (after_fetch w (fetch_order s) ft) (display_order s),
       Returned None).

(** ** float64 *)

(** The mantissa and the exponent of the binary64 number equal to the
    integer [p], for [p] of at most 53 bits. *)
Definition canon_m (p : positive) : positive :=
  match (Z.pos (digits2_pos p) - 53)%Z with
  | Z.neg k => Pos.iter xO p k
  | _ => p
  end.

Definition canon_e (p : positive) : Z :=
  match Z.pos (digits2_pos p) - 53 with
  | Z.neg k => Z.pos (digits2_pos p) - 53
  | _ => 0
  end.




(** The tick the specification describes at index [i] of a range that
    starts at the integer [min]. *)
Definition spec_tick (min i : Z) : Tick :=
  mkTick (f64_of_int (min + i * GroupSize)) (if i mod 13 =? 0 then "|" else "").


(** ** File names *)

(** The bytes [cleaner] replaces. *)
Definition unclean (c : ascii) : bool :=
  (c =? " ")%char || (c =? ":")%char || (c =? "\")%char || (c =? "/")%char.

(** The bytes of a string. *)
Fixpoint bytes (s : string) : list ascii :=
  match s with
  | EmptyString => []
  | String c s' => c :: bytes s'
  end.

(** ** Examples: commits, configurations, cache files, collaborators *)

(** The scenario of the specification: four commits in two weeks, seen
    from the year 2100. *)
Definition scenario_now : Time := unixTime 4102444800.
Definition scenario_commits : list Time :=
  unixTime <$> [0; 86400; 604800; 604800 + 3600].

(** A configuration of two repositories, nothing fetched yet. *)
Definition example_config : FileType :=
  <["urlA"%string := mkChart "A" []]> (<["urlB"%string := mkChart "B" []]> ∅).

(** A snapshot that renames [urlA] and has an identifier the configuration
    lacks; the commit of [urlA] is 2020-01-01T00:00:00Z. *)
Definition example_store : Snapshot :=
  <["urlA"%string := Some (mkChart "renamed" [unixTime 1577836800])]>
  (<["urlC"%string := Some (mkChart "C" [unixTime 5])]> ∅).

(** [example_config] after loading [example_store]. *)
Definition example_loaded : FileType :=
  <["urlA"%string := mkChart "A" [unixTime 1577836800]]>
  (<["urlB"%string := mkChart "B" []]> ∅).

(** Collaborators that never fail: every repository has one commit. *)
Definition example_world : World :=
  mkWorld (FileDecoded example_store) (λ _, ([unixTime 10], None))
    (λ _, None) (λ _, scenario_now) (λ _ _ _ _, None).

(** The loops take the keys in the order of [elements]; the aggregation
    maps of the two charts have one bucket each. *)
Definition example_schedule : Schedule :=
  mkSchedule (elements (dom example_config)) (elements (dom example_config))
    (elements (dom example_config))
    (λ u, if String.eqb u "urlA" then [1577318400] else [0]).

(** No cache file, and a history provider that fails. *)
Definition failing_world : World :=
  mkWorld FileNotExist (λ _, ([], Some "fetch failed"%string))
    (λ _, None) (λ _, scenario_now) (λ _ _ _ _, None).

(** A schedule for runs on [urlLookup] that display no commit. *)
Definition url_schedule : Schedule :=
  mkSchedule (elements (dom urlLookup)) (elements (dom urlLookup))
    (elements (dom urlLookup)) (λ _, []).

(** The table the run of [example_world] saves. *)
Definition example_saved : FileType :=
  <["urlB"%string := mkChart "B" [unixTime 10]]> example_loaded.

(** The collaborators of the run after: the cache file decodes to the
    table the run before has saved, and the history provider fails. *)
Definition second_world : World :=
  mkWorld (FileDecoded (Some <$> example_saved)) (λ _, ([], Some "offline"%string))
    (λ _, None) (λ _, scenario_now) (λ _ _ _ _, None).

(** A file system on which [Close] fails. *)
Definition close_fails : SaveEnv :=
  mkSaveEnv None (λ _, None) (Some "close failed"%string).

(** * Properties *)

(** Gives [lia] the number of seconds in a week. *)
Ltac week_size H := assert (GroupSize = 604800) as H by reflexivity.

(** ** [Load] *)

Lemma Load_range_lookup order store ft ft' k :
  Load_range order store ft = Some ft' →
  ft' !! k = (λ ch, if decide (k ∈ order) then merged store k ch else ch) <$> ft !! k.
Proof.
  revert ft. induction order as [|key rest IH]; intros ft Hl; simpl in Hl.
  - injection Hl as <-. by destruct (ft !! k).
  - destruct (ft !! key) as [ch|] eqn:Hft.
    + destruct (store !! key) as [[v|]|] eqn:Hs; [|done|].
      * rewrite (IH _ Hl). destruct (decide (k = key)) as [->|Hne].
        -- rewrite lookup_insert_eq, Hft. simpl. f_equal.
           rewrite (decide_True (P := key ∈ key :: rest)) by left.
           unfold merged. rewrite Hs. simpl. by destruct (decide (key ∈ rest)).
        -- rewrite lookup_insert_ne by done. destruct (ft !! k); simpl; [|done].
           f_equal. destruct (decide (k ∈ rest)) as [Hin|Hin].
           ++ by rewrite decide_True by (by right).
           ++ rewrite decide_False; [done|]. rewrite elem_of_cons. tauto.
      * rewrite (IH _ Hl). destruct (ft !! k) as [c|] eqn:Hk; simpl; [|done].
        f_equal. destruct (decide (k = key)) as [->|Hne].
        -- rewrite (decide_True (P := key ∈ key :: rest)) by left.
           unfold merged. rewrite Hs. by destruct (decide (key ∈ rest)).
        -- destruct (decide (k ∈ rest)) as [Hin|Hin].
           ++ by rewrite decide_True by (by right).
           ++ rewrite decide_False; [done|]. rewrite elem_of_cons. tauto.
    + rewrite (IH _ Hl). destruct (ft !! k) as [c|] eqn:Hk; simpl; [|done].
      f_equal. destruct (decide (k = key)) as [->|Hne]; [congruence|].
      destruct (decide (k ∈ rest)) as [Hin|Hin].
      * by rewrite decide_True by (by right).
      * rewrite decide_False; [done|]. rewrite elem_of_cons. tauto.
Qed.

(** The loop returns when no configured key it visits has a nil persisted
    entry, and panics when one has. *)
Lemma Load_range_returns order store ft :
  (∀ k, k ∈ order → is_Some (ft !! k) → store !! k ≠ Some None) →
  is_Some (Load_range order store ft).
Proof.
  revert ft. induction order as [|key rest IH]; intros ft Hnil; simpl; [by eexists|].
  destruct (ft !! key) as [ch|] eqn:Hft.
  - destruct (store !! key) as [[v|]|] eqn:Hs.
    + apply IH. intros k Hin [c Hc]. apply Hnil; [by right|].
      destruct (decide (k = key)) as [->|Hne]; [by eexists|].
      rewrite lookup_insert_ne in Hc by done. by eexists.
    + exfalso. apply (Hnil key); [left|by eexists|done].
    + apply IH. intros k Hin Hk. apply Hnil; [by right|done].
  - apply IH. intros k Hin Hk. apply Hnil; [by right|done].
Qed.

Lemma Load_range_panics order store ft key :
  key ∈ order → is_Some (ft !! key) → store !! key = Some None →
  Load_range order store ft = None.
Proof.
  revert ft. induction order as [|k rest IH]; intros ft Hin Hft Hs.
  - by apply not_elem_of_nil in Hin.
  - simpl. destruct (decide (key = k)) as [->|Hne].
    + destruct Hft as [ch ->]. by rewrite Hs.
    + assert (key ∈ rest) as Hin' by (apply elem_of_cons in Hin; tauto).
      destruct (ft !! k) as [ch|] eqn:Hk; [|by apply IH].
      destruct (store !! k) as [[v|]|]; [|done|by apply IH].
      apply IH; [done| |done]. by rewrite lookup_insert_ne.
Qed.

Lemma Load_range_panic_inv order store ft :
  Load_range order store ft = None →
  ∃ k, k ∈ order ∧ is_Some (ft !! k) ∧ store !! k = Some None.
Proof.
  revert ft. induction order as [|key rest IH]; intros ft Hl; simpl in Hl; [done|].
  destruct (ft !! key) as [ch|] eqn:Hk.
  - destruct (store !! key) as [[v|]|] eqn:Hs.
    + apply IH in Hl as (k & Hin & Hsome & Hnil). exists k. split; [by right|].
      split; [|done]. destruct (decide (k = key)) as [->|Hne]; [by eexists|].
      by rewrite lookup_insert_ne in Hsome.
    + exists key. split; [left|]. split; [by eexists|done].
    + apply IH in Hl as (k & Hin & Hrest). exists k. split; [by right|done].
  - apply IH in Hl as (k & Hin & Hrest). exists k. split; [by right|done].
Qed.

Lemma range_order_elem {K} `{Countable K} {V} (m : gmap K V) order k :
  range_order m order → (k ∈ order ↔ is_Some (m !! k)).
Proof.
  unfold range_order. intros ->. by rewrite elem_of_elements, elem_of_dom.
Qed.

Lemma Load_names order ft file err ft' k :
  Load order ft file = Returned (err, ft') →
  Name <$> ft' !! k = Name <$> ft !! k.
Proof.
  destruct file as [|e|e|store]; simpl; intros Hl; try by inversion Hl.
  destruct (Load_range order store ft) as [ft1|] eqn:Hr; [|done].
  inversion Hl; subst. rewrite (Load_range_lookup _ _ _ _ k Hr).
  destruct (ft !! k) as [ch|]; simpl; [|done].
  f_equal. destruct (decide (k ∈ order)); [|done].
  unfold merged. by destruct (store !! k) as [[v|]|].
Qed.




(** C9.  A missing cache file is no error and changes nothing, so the
    entries of the configured table stay empty; any other failure to open
    or decode is returned with the table unchanged, and [run] then returns
    that error having cloned, saved and displayed nothing. *)
Theorem Load_missing_or_failing (order : list string) (ft : FileType) (e : error)
    (h : string → list Time * option error) (sv : FileType → option error)
    (ck : string → Time) (ps : string → string → list XY → float64 → option error)
    (s : Schedule) :
  Load order ft FileNotExist = Returned (None, ft) ∧
  Load order urlLookup FileNotExist = Returned (None, urlLookup) ∧
  map_Forall (λ _ ch, Commits ch = []) urlLookup ∧
  Load order ft (FileOpenError e) = Returned (Some e, ft) ∧
  Load order ft (FileDecodeError e) = Returned (Some e, ft) ∧
  run_on ft (mkWorld (FileOpenError e) h sv ck ps) s = ([], Returned (Some e)) ∧
  run_on ft (mkWorld (FileDecodeError e) h sv ck ps) s = ([], Returned (Some e)).
Proof.
  repeat split; try reflexivity.
  unfold urlLookup. intros k ch Hk.
  repeat (apply lookup_insert_Some in Hk as [[_ <-]|[_ Hk]]; [done|]).
  by rewrite lookup_empty in Hk.
Qed.

(** [Load] panics, on a nil [*chart], exactly when the cache file holds a
    JSON null under a configured identifier. *)
Theorem Load_panics_on_null (order : list string) (ft : FileType) (store : Snapshot) :
  range_order ft order →
  (Load order ft (FileDecoded store) = Panicked ↔
   ∃ k, is_Some (ft !! k) ∧ store !! k = Some None).
Proof.
  intros Hord. unfold Load. split.
  - intros Hp. destruct (Load_range order store ft) as [ft'|] eqn:Hr; [done|].
    destruct (Load_range_panic_inv _ _ _ Hr) as (k & _ & Hk & Hs). by exists k.
  - intros (k & Hk & Hs).
    rewrite (Load_range_panics order store ft k); [done| |done|done].
    by apply (range_order_elem ft).
Qed.

Lemma Load_panics_on_null_witness :
  Load (elements (dom example_config)) example_config
    (FileDecoded (<["urlB"%string := None]> example_store)) = Panicked ↔
  ∃ k, is_Some (example_config !! k) ∧
       (<["urlB"%string := None]> example_store : Snapshot) !! k = Some None.
Proof.
  apply (Load_panics_on_null (elements (dom example_config)) example_config).
  unfold range_order. reflexivity.
Defined.

(** What [Load] returns does not depend on the order in which Go ranges
    over the table. *)
Theorem Load_order_independent (order1 order2 : list string) (ft : FileType)
    (file : CacheFile) :
  range_order ft order1 → range_order ft order2 →
  Load order1 ft file = Load order2 ft file.
Proof.
  intros H1 H2. destruct file as [| | |store]; try done. simpl.
  destruct (Load_range order1 store ft) as [ft1|] eqn:Hr1,
           (Load_range order2 store ft) as [ft2|] eqn:Hr2.
  - do 2 f_equal. apply map_eq. intros k.
    rewrite (Load_range_lookup _ _ _ _ k Hr1), (Load_range_lookup _ _ _ _ k Hr2).
    destruct (ft !! k) as [ch|] eqn:Hk; [|done]. simpl.
    rewrite !decide_True; [done| |]; apply (range_order_elem ft); (done || by eexists).
  - exfalso. destruct (Load_range_returns order2 store ft) as [ft' Hft']; [|congruence].
    intros k Hin Hk Hs.
    rewrite (Load_range_panics order1 store ft k) in Hr1; [done| |done|done].
    by apply (range_order_elem ft).
  - exfalso. destruct (Load_range_returns order1 store ft) as [ft' Hft']; [|congruence].
    intros k Hin Hk Hs.
    rewrite (Load_range_panics order2 store ft k) in Hr2; [done| |done|done].
    by apply (range_order_elem ft).
  - done.
Qed.

Lemma Load_order_independent_witness :
  Load ["urlA"; "urlB"]%string example_config (FileDecoded example_store) =
  Load ["urlB"; "urlA"]%string example_config (FileDecoded example_store).
Proof.
  apply (Load_order_independent ["urlA"; "urlB"]%string ["urlB"; "urlA"]%string).
  - unfold range_order. vm_compute elements. reflexivity.
  - unfold range_order. vm_compute elements. apply Permutation_swap.
Defined.

(** A table with the names of [config] under the keys of [config] is what
    [Load] makes of [config] and the table's own image. *)
Lemma Load_image order config f :
  (∀ k, Name <$> f !! k = Name <$> config !! k) →
  (∀ k, is_Some (config !! k) → k ∈ order) →
  Load order config (FileDecoded (Some <$> f)) = Returned (None, f).
Proof.
  intros Hname Hord. unfold Load.
  destruct (Load_range_returns order (Some <$> f) config) as [ft' Hr].
  { intros k _ _. rewrite lookup_fmap. by destruct (f !! k). }
  rewrite Hr. do 2 f_equal. apply map_eq. intros k.
  rewrite (Load_range_lookup _ _ _ _ k Hr). specialize (Hname k).
  destruct (config !! k) as [ch|] eqn:Hk; simpl.
  - rewrite decide_True by (apply Hord; by eexists).
    unfold merged. rewrite lookup_fmap.
    destruct (f !! k) as [v|]; [|done]. simpl in *. injection Hname as Hn.
    destruct v as [n c]. simpl in *. by subst n.
  - by destruct (f !! k).
Qed.

(** [Load] is idempotent: what it makes of a table and a cache file it
    leaves as it is when it is given the result and the same file again,
    in whatever orders the two loops range. *)
Theorem Load_idempotent (order1 order2 : list string) (ft ft' : FileType)
    (file : CacheFile) :
  range_order ft order1 → range_order ft order2 →
  Load order1 ft file = Returned (None, ft') →
  Load order2 ft' file = Returned (None, ft').
Proof.
  intros H1 H2 Hl. destruct file as [| | |store]; simpl in *; try done.
  destruct (Load_range order1 store ft) as [ft1|] eqn:Hr1; [|done].
  injection Hl as ->.
  pose proof (λ k, Load_range_lookup _ _ _ _ k Hr1) as Hlk.
  destruct (Load_range_returns order2 store ft') as [ft2 Hr2].
  { intros k _ Hk Hs. rewrite Hlk, fmap_is_Some in Hk.
    rewrite (Load_range_panics order1 store ft k) in Hr1; [done| |done|done].
    by apply (range_order_elem ft). }
  rewrite Hr2. do 2 f_equal. apply map_eq. intros k.
  rewrite (Load_range_lookup _ _ _ _ k Hr2), Hlk.
  destruct (ft !! k) as [ch|] eqn:Hk; [|done]. simpl. f_equal.
  rewrite !decide_True by (apply (range_order_elem ft); (done || by eexists)).
  unfold merged. by destruct (store !! k) as [[v|]|].
Qed.

Lemma Load_idempotent_witness :
  Load ["urlB"; "urlA"]%string example_loaded (FileDecoded example_store) =
    Returned (None, example_loaded).
Proof.
  apply (Load_idempotent ["urlA"; "urlB"]%string ["urlB"; "urlA"]%string example_config).
  - unfold range_order. vm_compute elements. reflexivity.
  - unfold range_order. vm_compute elements. apply Permutation_swap.
  - by vm_compute.
Defined.

(** ** [run] *)

(** What the fetch loop does: it clones some identifiers [us], one after
    the other, each with no commits in the table the loop started from; it
    keeps every name; it stops with the error of the clone that failed,
    and otherwise sets [updated] when it cloned at all. *)
Lemma fetch_range_inv w order st st' err :
  fetch_range w order st = (st', err) →
  ∃ us,
    trace st' = trace st ++ (EvClone <$> us) ∧
    (∀ u, u ∈ us → ∃ ch, table st !! u = Some ch ∧ Commits ch = []) ∧
    (∀ k, Name <$> table st' !! k = Name <$> table st !! k) ∧
    match err with
    | Some e => ∃ u, u ∈ us ∧ (history w u).2 = Some e
    | None =>
        (∀ u, u ∈ us → (history w u).2 = None) ∧
        updated st' = updated st || bool_decide (us ≠ [])
    end.
Proof.
  revert st. induction order as [|u rest IH]; intros st Hf; simpl in Hf.
  - injection Hf as <- <-. exists []. simpl. rewrite app_nil_r.
    repeat split; try done.
    + intros u Hu. by apply not_elem_of_nil in Hu.
    + intros u Hu. by apply not_elem_of_nil in Hu.
    + by rewrite orb_false_r.
  - destruct (table st !! u) as [ch|] eqn:Hu; [|by apply IH].
    destruct (0 <? Z.of_nat (length (Commits ch))) eqn:Hlen; [by apply IH|].
    assert (Commits ch = []) as Hnil.
    { apply Z.ltb_ge in Hlen. destruct (Commits ch); [done|simpl in Hlen; lia]. }
    destruct (history w u) as [times [e|]] eqn:Hh; simpl in Hf.
    + injection Hf as <- <-. exists [u]. simpl. repeat split.
      * intros u' Hu'. apply list_elem_of_singleton in Hu' as ->. eauto.
      * intros k. destruct (decide (k = u)) as [->|Hne].
        -- by rewrite lookup_insert_eq, Hu.
        -- by rewrite lookup_insert_ne.
      * exists u. rewrite Hh. split; [apply list_elem_of_singleton|]; done.
    + apply IH in Hf as (us & Htr & Hempty & Hname & Herr). simpl in *.
      exists (u :: us). split; [by rewrite Htr, <- app_assoc|]. split; [|split].
      * intros u' Hu'. apply elem_of_cons in Hu' as [->|Hu']; [eauto|].
        destruct (Hempty u' Hu') as (c & Hc & Hc').
        destruct (decide (u' = u)) as [->|Hne]; [eauto|].
        rewrite lookup_insert_ne in Hc by done. eauto.
      * intros k. rewrite Hname. destruct (decide (k = u)) as [->|Hne].
        -- by rewrite lookup_insert_eq, Hu.
        -- by rewrite lookup_insert_ne.
      * destruct err as [e|].
        -- destruct Herr as (u' & Hin & He). exists u'. split; [by right|done].
        -- destruct Herr as [Hok Hupd]. split.
           ++ intros u' Hu'. apply elem_of_cons in Hu' as [->|Hu']; [by rewrite Hh|eauto].
           ++ rewrite Hupd. by rewrite orb_true_r.
Qed.

(** The display loop changes neither the table nor [updated], and shows
    charts of that table. *)
Lemma display_range_inv w s order st st' err :
  display_range w s order st = (st', err) →
  ∃ ds,
    trace st' = trace st ++ ((λ d, EvDisplay d.1 d.2) <$> ds) ∧
    (∀ d, d ∈ ds → table st !! d.1 = Some d.2).
Proof.
  revert st. induction order as [|u rest IH]; intros st Hf; simpl in Hf.
  - injection Hf as <- <-. exists []. simpl. rewrite app_nil_r. split; [done|].
    intros d Hd. by apply not_elem_of_nil in Hd.
  - destruct (table st !! u) as [ch|] eqn:Hu; [|by apply IH].
    destruct (display w s u ch) as [e|].
    + injection Hf as <- <-. exists [(u, ch)]. split; [done|].
      intros d Hd. by apply list_elem_of_singleton in Hd as ->.
    + apply IH in Hf as (ds & Htr & Hds). simpl in *.
      exists ((u, ch) :: ds). split; [by rewrite Htr, <- app_assoc|].
      intros d Hd. apply elem_of_cons in Hd as [->|Hd]; eauto.
Qed.

(** The shape of a run's trace once [Load] has returned nil with the table
    [ft]: the clones, then the save when there is one, then the displays. *)
Lemma run_on_trace config w s ft :
  loaded config w s ft →
  ∃ us sv ds,
    (run_on config w s).1 =
      (EvClone <$> us) ++ (EvSave <$> sv) ++ ((λ d, EvDisplay d.1 d.2) <$> ds) ∧
    (∀ u, u ∈ us → ∃ ch, ft !! u = Some ch ∧ Commits ch = []) ∧
    (∀ d, d ∈ ds → Name <$> ft !! d.1 = Some (Name d.2)) ∧
    (sv ≠ [] ↔ us ≠ [] ∧ ∀ u, u ∈ us → (history w u).2 = None).
Proof.
  unfold loaded, run_on. intros ->.
  destruct (fetch_range w (fetch_order s) (mkRunState ft false []))
    as [st1 err1] eqn:Hf.
  apply fetch_range_inv in Hf as (us & Htr & Hempty & Hname & Herr).
  simpl in Htr, Hempty, Hname. exists us.
  destruct err1 as [e|].
  { exists [], []. simpl. rewrite app_nil_r. repeat split; try done.
    - intros d Hd. by apply not_elem_of_nil in Hd.
    - intros [_ Hok]. destruct Herr as (u & Hin & He).
      rewrite (Hok u Hin) in He. done. }
  destruct Herr as [Hok Hupd]. simpl in Hupd.
  destruct (updated st1) eqn:Hu.
  - symmetry in Hupd. apply bool_decide_eq_true in Hupd.
    destruct (save_file w (table st1)) as [e|].
    + exists [table st1], []. simpl. rewrite Htr. repeat split; try done.
      intros d Hd. by apply not_elem_of_nil in Hd.
    + destruct (display_range w s (display_order s) (emit (EvSave (table st1)) st1))
        as [st3 err3] eqn:Hd.
      apply display_range_inv in Hd as (ds & Htr3 & Hds). simpl in *.
      exists [table st1], ds. rewrite Htr3, Htr, <- app_assoc. repeat split; try done.
      intros d Hd. rewrite <- Hname, (Hds d Hd). done.
  - symmetry in Hupd. apply bool_decide_eq_false in Hupd.
    destruct (display_range w s (display_order s) st1) as [st3 err3] eqn:Hd.
    apply display_range_inv in Hd as (ds & Htr3 & Hds). simpl in *.
    exists [], ds. rewrite Htr3, Htr. repeat split; try done.
    + intros d Hd. rewrite <- Hname, (Hds d Hd). done.
    + intros [Hne _]. done.
Qed.

(** When [Load] fails or panics, the run does nothing else. *)
Lemma run_on_not_loaded config w s :
  (∀ ft, ¬ loaded config w s ft) → (run_on config w s).1 = [].
Proof.
  unfold loaded, run_on. intros Hn.
  destruct (Load (load_order s) config (cache_file w)) as [[[e|] ft]|]; try done.
  by destruct (Hn ft).
Qed.

Lemma loaded_or_not config w s :
  (∃ ft, loaded config w s ft) ∨ (∀ ft, ¬ loaded config w s ft).
Proof.
  unfold loaded.
  destruct (Load (load_order s) config (cache_file w)) as [[[e|] ft]|];
    [right|left; by exists ft|right]; intros ft'; congruence.
Qed.

Section Trace.
Context (us : list string) (sv : list FileType) (ds : list (string * chart)).

Let tr : list event :=
  (EvClone <$> us) ++ (EvSave <$> sv) ++ ((λ d, EvDisplay d.1 d.2) <$> ds).

Lemma cloned_trace u : cloned u tr ↔ u ∈ us.
Proof.
  unfold cloned, tr. rewrite !elem_of_app, !list_elem_of_fmap. split.
  - intros [(u' & [= ->] & Hin)|[(f & [=] & _)|(d & [=] & _)]]. done.
  - intros Hin. left. by exists u.
Qed.

Lemma saved_trace : saved tr ↔ sv ≠ [].
Proof.
  unfold saved, tr. split.
  - intros [ft Hin]. rewrite !elem_of_app, !list_elem_of_fmap in Hin.
    destruct Hin as [(u' & [=] & _)|[(f & _ & Hin)|(d & [=] & _)]].
    intros ->. by apply not_elem_of_nil in Hin.
  - destruct sv as [|ft sv']; [done|]. intros _. exists ft.
    rewrite !elem_of_app, !list_elem_of_fmap. right; left. exists ft. split; [done|left].
Qed.

Lemma displayed_trace u ch : EvDisplay u ch ∈ tr ↔ (u, ch) ∈ ds.
Proof.
  unfold tr. rewrite !elem_of_app, !list_elem_of_fmap. split.
  - intros [(u' & [=] & _)|[(f & [=] & _)|([u' c'] & [= -> ->] & Hin)]]. done.
  - intros Hin. right; right. by exists (u, ch).
Qed.
End Trace.

Lemma example_world_loaded :
  loaded example_config example_world example_schedule example_loaded.
Proof. by vm_compute. Qed.

(** What the two example runs do. *)
Lemma example_run_trace :
  run_on example_config example_world example_schedule =
    ([EvClone "urlB";
      EvSave (<["urlB"%string := mkChart "B" [unixTime 10]]> example_loaded);
      EvDisplay "urlA" (mkChart "A" [unixTime 1577836800]);
      EvDisplay "urlB" (mkChart "B" [unixTime 10])],
     Returned None).
Proof. by vm_compute. Qed.

Lemma failing_run_trace :
  run failing_world url_schedule =
    ([EvClone "https://github.com/linuxdeepin/dde-session-shell"],
     Returned (Some "fetch failed"%string)).
Proof. by vm_compute. Qed.

(** C2.  Fetch once.  With [ft] the table as [Load] left it, the history
    provider is never called for an identifier whose commits are not empty
    in [ft]; every identifier it is called for has an entry in [ft] with
    no commits. *)
Theorem fetch_only_when_empty (config : FileType) (w : World) (s : Schedule)
    (ft : FileType) :
  loaded config w s ft →
  (∀ u ch, ft !! u = Some ch → Commits ch ≠ [] → ¬ cloned u (run_on config w s).1) ∧
  (∀ u, cloned u (run_on config w s).1 → ∃ ch, ft !! u = Some ch ∧ Commits ch = []).
Proof.
  intros Hl. destruct (run_on_trace _ _ _ _ Hl) as (us & sv & ds & -> & Hempty & _ & _).
  split.
  - intros u ch Hu Hne Hc. apply cloned_trace in Hc.
    destruct (Hempty u Hc) as (c & Hc1 & Hc2). congruence.
  - intros u Hc. apply cloned_trace in Hc. auto.
Qed.

Lemma fetch_only_when_empty_witness :
  (∀ u ch, example_loaded !! u = Some ch → Commits ch ≠ [] →
     ¬ cloned u (run_on example_config example_world example_schedule).1) ∧
  (∀ u, cloned u (run_on example_config example_world example_schedule).1 →
     ∃ ch, example_loaded !! u = Some ch ∧ Commits ch = []).
Proof.
  apply (fetch_only_when_empty example_config example_world example_schedule example_loaded).
  exact example_world_loaded.
Defined.

(** C8, as stated, fails: with no cache file and a history provider that
    fails, a fetch was needed and attempted, and the run ends without
    saving. *)
Lemma save_iff_fetched_counterexample :
  ¬ (saved (run failing_world url_schedule).1 ↔
     ∃ u, cloned u (run failing_world url_schedule).1).
Proof.
  rewrite failing_run_trace. simpl. intros [_ Hs].
  destruct Hs as [ft Hin].
  - eexists. unfold cloned. left.
  - apply list_elem_of_singleton in Hin. discriminate.
Qed.

(** C8, as amended.  A run saves the cache exactly when it cloned at least
    one identifier and the history provider failed for none of those it
    was called for (a failed fetch ends the run before [Save]); a run
    whose table has commits under every identifier after [Load] neither
    clones nor saves. *)
Theorem save_iff_fetched (config : FileType) (w : World) (s : Schedule) :
  (saved (run_on config w s).1 ↔
     (∃ u, cloned u (run_on config w s).1) ∧
     (∀ u, cloned u (run_on config w s).1 → (history w u).2 = None)) ∧
  (∀ ft, loaded config w s ft → map_Forall (λ _ ch, Commits ch ≠ []) ft →
     ¬ saved (run_on config w s).1 ∧ ∀ u, ¬ cloned u (run_on config w s).1).
Proof.
  destruct (loaded_or_not config w s) as [[ft Hl]|Hn].
  - destruct (run_on_trace _ _ _ _ Hl) as (us & sv & ds & -> & Hempty & _ & Hsv).
    assert (∀ u, cloned u ((EvClone <$> us) ++ (EvSave <$> sv)
                    ++ ((λ d, EvDisplay d.1 d.2) <$> ds)) ↔ u ∈ us) as Hcl
      by (intros u; apply cloned_trace).
    split.
    + rewrite saved_trace, Hsv. setoid_rewrite Hcl. split.
      * intros [Hne Hok]. split; [|done]. destruct us as [|u us']; [done|].
        exists u. left.
      * intros [[u Hu] Hok]. split; [|done]. intros ->. by apply not_elem_of_nil in Hu.
    + intros ft' Hl' Hall. unfold loaded in Hl, Hl'. rewrite Hl in Hl'.
      injection Hl' as <-.
      assert (us = []) as ->.
      { destruct us as [|u us']; [done|]. destruct (Hempty u) as (c & Hc & Hc'); [left|].
        by destruct (Hall u c Hc). }
      split.
      * rewrite saved_trace, Hsv. by intros [? _].
      * intros u. rewrite Hcl. apply not_elem_of_nil.
  - rewrite (run_on_not_loaded _ _ _ Hn). split.
    + split.
      * intros [ft Hin]. by apply not_elem_of_nil in Hin.
      * intros [[u Hin] _]. by apply not_elem_of_nil in Hin.
    + intros ft Hl. by destruct (Hn ft).
Qed.

(** C10.  [Load] never changes a name: whatever the cache file holds, each
    entry of the table keeps its [Name], also when the snapshot records
    another one; and every chart a run displays carries the name its
    identifier has in the configured table, from which [display] takes
    the title and the file name. *)
Theorem names_from_configuration (config : FileType) (w : World) (s : Schedule) :
  (∀ order file err ft', Load order config file = Returned (err, ft') →
     ∀ k, Name <$> ft' !! k = Name <$> config !! k) ∧
  (∀ u ch, EvDisplay u ch ∈ (run_on config w s).1 →
     Name <$> config !! u = Some (Name ch)).
Proof.
  split.
  - intros order file err ft' Hl k. by eapply Load_names.
  - intros u ch. destruct (loaded_or_not config w s) as [[ft Hl]|Hn].
    + destruct (run_on_trace _ _ _ _ Hl) as (us & sv & ds & -> & _ & Hds & _).
      rewrite displayed_trace. intros Hin.
      rewrite <- (Load_names _ _ _ _ _ u Hl). apply (Hds _ Hin).
    + rewrite (run_on_not_loaded _ _ _ Hn). intros Hin. by apply not_elem_of_nil in Hin.
Qed.

(** The second scenario of the specification: a cache file with one commit
    for the only configured identifier.  The run loads the commit, calls
    neither the history provider nor [Save], and displays the chart. *)
Theorem cached_run_scenario (h : string → list Time * option error)
    (sv : FileType → option error) (ck : string → Time) (order : string → list Z) :
  Load ["urlA"%string] {[ "urlA"%string := mkChart "A" [] ]}
    (FileDecoded {[ "urlA"%string := Some (mkChart "A" [unixTime 1577836800]) ]}) =
    Returned (None, {[ "urlA"%string := mkChart "A" [unixTime 1577836800] ]}) ∧
  run_on {[ "urlA"%string := mkChart "A" [] ]}
    (mkWorld (FileDecoded {[ "urlA"%string := Some (mkChart "A" [unixTime 1577836800]) ]})
       h sv ck (λ _ _ _ _, None))
    (mkSchedule ["urlA"%string] ["urlA"%string] ["urlA"%string] order) =
    ([EvDisplay "urlA" (mkChart "A" [unixTime 1577836800])], Returned None).
Proof.
  split; [by vm_compute|].
  unfold run_on.
  replace (Load _ _ _) with
    (Returned (None : option error,
               ({[ "urlA"%string := mkChart "A" [unixTime 1577836800] ]} : FileType)))
    by (by vm_compute).
  simpl. rewrite lookup_singleton_eq. simpl.
  rewrite lookup_singleton_eq. unfold display.
  by destruct (display_data _ _ _).
Qed.

(** Fail fast: when the history provider fails for every identifier, a run
    that has to fetch returns the error of its first clone, and neither
    saves nor displays. *)
Theorem fetch_error_is_fatal (config : FileType) (w : World) (s : Schedule)
    (ft : FileType) (e : error) :
  loaded config w s ft →
  (∀ u, (history w u).2 = Some e) →
  (∃ u, cloned u (run_on config w s).1) →
  ∃ u, run_on config w s = ([EvClone u], Returned (Some e)).
Proof.
  unfold loaded, run_on, cloned. intros -> Hfail.
  assert (∀ order st,
    (∃ u, fetch_range w order st = (emit (EvClone u)
            (mkRunState (<[u := {| Name := Name (default (mkChart "" []) (table st !! u));
                                   Commits := Commits (default (mkChart "" []) (table st !! u))
                                              ++ (history w u).1 |}]> (table st))
               (updated st) (trace st)), Some e)) ∨
    fetch_range w order st = (st, None)) as Hfetch.
  { induction order as [|u rest IH]; intros st; simpl; [by right|].
    destruct (table st !! u) as [ch|] eqn:Hu; [|apply IH].
    destruct (0 <? Z.of_nat (length (Commits ch))); [apply IH|].
    left. exists u. specialize (Hfail u).
    destruct (history w u) as [times err]. simpl in Hfail. subst err.
    by rewrite Hu. }
  destruct (Hfetch (fetch_order s) (mkRunState ft false [])) as [[u ->]| ->]; simpl.
  - intros _. by exists u.
  - intros [u Hin].
    destruct (display_range w s (display_order s) (mkRunState ft false []))
      as [st3 err3] eqn:Hd.
    apply display_range_inv in Hd as (ds & Htr & _). simpl in *.
    rewrite Htr in Hin. apply list_elem_of_fmap in Hin as (d & [=] & _).
Qed.

Lemma fetch_error_is_fatal_witness :
  ∃ u, run_on urlLookup failing_world url_schedule =
         ([EvClone u], Returned (Some "fetch failed"%string)).
Proof.
  apply (fetch_error_is_fatal urlLookup failing_world url_schedule urlLookup).
  - reflexivity.
  - reflexivity.
  - eexists. pose proof failing_run_trace as Htr. unfold run in Htr.
    rewrite Htr. left.
Defined.

(** ** The loops of [run], in full *)

Lemma fetched_fetched w u ch : fetched w u (fetched w u ch) = fetched w u ch.
Proof.
  unfold fetched. destruct (decide (Commits ch = [])) as [Hc|Hc]; simpl.
  - destruct (decide ((history w u).1 = [])) as [Hh|Hh]; [by rewrite Hh|done].
  - by rewrite decide_False.
Qed.

(** A fetch loop that ends without error leaves every entry it visits
    [fetched]. *)
Lemma fetch_range_table w order st st' :
  fetch_range w order st = (st', None) →
  ∀ u, table st' !! u =
       (λ ch, if decide (u ∈ order) then fetched w u ch else ch) <$> table st !! u.
Proof.
  revert st. induction order as [|u0 rest IH]; intros st Hf u; simpl in Hf.
  - injection Hf as <-. by destruct (table st !! u).
  - assert (∀ st0, fetch_range w rest st0 = (st', None) →
            table st0 !! u0 = fetched w u0 <$> table st !! u0 →
            (∀ k, k ≠ u0 → table st0 !! k = table st !! k) →
            table st' !! u =
            (λ ch, if decide (u ∈ u0 :: rest) then fetched w u ch else ch) <$> table st !! u)
      as Hstep.
    { intros st0 Hf0 Hu0 Hother. rewrite (IH _ Hf0 u).
      destruct (decide (u = u0)) as [->|Hne].
      - rewrite Hu0. destruct (table st !! u0) as [ch|]; simpl; [|done].
        rewrite (decide_True (P := u0 ∈ u0 :: rest)) by left.
        destruct (decide (u0 ∈ rest)); [by rewrite fetched_fetched|done].
      - rewrite Hother by done. destruct (table st !! u) as [ch|]; simpl; [|done].
        destruct (decide (u ∈ rest)) as [Hin|Hin].
        + by rewrite decide_True by (by right).
        + rewrite decide_False; [done|]. rewrite elem_of_cons. tauto. }
    destruct (table st !! u0) as [ch|] eqn:Hu0.
    + destruct (0 <? Z.of_nat (length (Commits ch))) eqn:Hlen.
      * apply (Hstep st Hf); [|done]. rewrite Hu0. simpl. f_equal.
        unfold fetched. rewrite decide_False; [done|].
        intros Hnil. rewrite Hnil in Hlen. done.
      * assert (Commits ch = []) as Hnil.
        { apply Z.ltb_ge in Hlen. destruct (Commits ch); [done|simpl in Hlen; lia]. }
        destruct (history w u0) as [times [e|]] eqn:Hh; simpl in Hf; [done|].
        apply (Hstep _ Hf); simpl.
        -- rewrite lookup_insert_eq. simpl. f_equal.
           unfold fetched. rewrite decide_True by done. by rewrite Hnil, Hh.
        -- intros k Hk. by rewrite lookup_insert_ne.
    + by apply (Hstep st Hf).
Qed.

Lemma fetch_range_after w order st st' :
  fetch_range w order st = (st', None) → table st' = after_fetch w order (table st).
Proof.
  intros Hf. apply map_eq. intros u. rewrite (fetch_range_table _ _ _ _ Hf u).
  unfold after_fetch. rewrite map_lookup_imap.
  by destruct (table st !! u).
Qed.

(** The identifiers a fetch loop clones had no commits when it started. *)
Lemma fetch_range_needed w order st st' err us :
  fetch_range w order st = (st', err) →
  trace st' = trace st ++ (EvClone <$> us) →
  ∀ u, u ∈ us → needs_fetch (table st) u = true.
Proof.
  intros Hf Htr. apply fetch_range_inv in Hf as (us' & Htr' & Hempty & _).
  rewrite Htr' in Htr. apply app_inv_head in Htr.
  assert (Inj (=) (=) EvClone) by (intros ?? [=]; done).
  apply (inj (fmap EvClone)) in Htr as ->.
  intros u Hu. destruct (Hempty u Hu) as (ch & Hch & Hnil). unfold needs_fetch.
  rewrite Hch. by apply bool_decide_eq_true.
Qed.

(** A fetch loop that ends with an error has just cloned the identifier
    whose history failed; the clones before it succeeded. *)
Lemma fetch_range_err w order st st' e :
  fetch_range w order st = (st', Some e) →
  ∃ us u,
    trace st' = trace st ++ (EvClone <$> us) ++ [EvClone u] ∧
    (history w u).2 = Some e ∧
    (∀ u', u' ∈ us → (history w u').2 = None).
Proof.
  revert st. induction order as [|u0 rest IH]; intros st Hf; simpl in Hf; [done|].
  destruct (table st !! u0) as [ch|] eqn:Hu0; [|by apply IH].
  destruct (0 <? Z.of_nat (length (Commits ch))); [by apply IH|].
  destruct (history w u0) as [times [e0|]] eqn:Hh; simpl in Hf.
  - injection Hf as <- <-. exists [], u0. simpl. rewrite Hh. split; [done|].
    split; [done|]. intros u' Hu'. by apply not_elem_of_nil in Hu'.
  - apply IH in Hf as (us & u & Htr & Hu & Hus). simpl in Htr.
    exists (u0 :: us), u. split; [by rewrite Htr, <- app_assoc|]. split; [done|].
    intros u' Hu'. apply elem_of_cons in Hu' as [->|Hu']; [by rewrite Hh|auto].
Qed.

Lemma displays_cons ft u rest :
  displays ft (u :: rest) =
    match ft !! u with
    | Some ch => EvDisplay u ch :: displays ft rest
    | None => displays ft rest
    end.
Proof. unfold displays. simpl. by destruct (ft !! u). Qed.

(** A display loop that ends without error has displayed the entry of
    every key, in order. *)
Lemma display_range_ok w s order st st' :
  display_range w s order st = (st', None) →
  table st' = table st ∧ updated st' = updated st ∧
  trace st' = trace st ++ displays (table st) order ∧
  (∀ ev, ev ∈ displays (table st) order → failed w s ev = None).
Proof.
  revert st. induction order as [|u0 rest IH]; intros st Hf; simpl in Hf.
  - injection Hf as <-. unfold displays. simpl. rewrite app_nil_r.
    repeat split; try done. intros ev Hin. by apply not_elem_of_nil in Hin.
  - rewrite displays_cons.
    destruct (table st !! u0) as [ch|] eqn:Hu0; simpl; [|by apply IH].
    destruct (display w s u0 ch) as [e|] eqn:Hd; [done|].
    apply IH in Hf as (Ht & Hu & Htr & Hok). simpl in *.
    split; [done|]. split; [done|]. split; [by rewrite Htr, <- app_assoc|].
    intros ev Hin. apply elem_of_cons in Hin as [->|Hin]; auto.
Qed.

(** A display loop that ends with an error has just displayed the chart
    that failed; the displays before it succeeded. *)
Lemma display_range_err w s order st st' e :
  display_range w s order st = (st', Some e) →
  ∃ pre u ch post,
    trace st' = trace st ++ pre ++ [EvDisplay u ch] ∧
    displays (table st) order = pre ++ [EvDisplay u ch] ++ post ∧
    display w s u ch = Some e ∧
    (∀ ev, ev ∈ pre → failed w s ev = None).
Proof.
  revert st. induction order as [|u0 rest IH]; intros st Hf; simpl in Hf; [done|].
  setoid_rewrite displays_cons.
  destruct (table st !! u0) as [ch|] eqn:Hu0; simpl; [|by apply IH].
  destruct (display w s u0 ch) as [e0|] eqn:Hd.
  - injection Hf as <- <-. exists [], u0, ch, (displays (table st) rest).
    split; [done|]. split; [done|]. split; [done|].
    intros ev Hev. by apply not_elem_of_nil in Hev.
  - apply IH in Hf as (pre & u & ch' & post & Htr & Hds & Hu & Hpre). simpl in Htr, Hds.
    exists (EvDisplay u0 ch :: pre), u, ch', post.
    split; [by rewrite Htr, <- app_assoc|]. split; [by rewrite Hds|]. split; [done|].
    intros ev Hev. apply elem_of_cons in Hev as [->|Hev]; eauto.
Qed.

(** A fetch loop over different keys that ends without error has cloned
    the keys that had no commits, in order. *)
Lemma filter_Forall_eq {A} (P Q : A → Prop) `{!∀ x, Decision (P x)}
    `{!∀ x, Decision (Q x)} (l : list A) :
  Forall (λ x, P x ↔ Q x) l → filter P l = filter Q l.
Proof.
  induction 1 as [|x l Hx _ IH]; [done|].
  rewrite !filter_cons, IH. repeat case_decide; tauto.
Qed.

Lemma fetch_range_clones w order st st' :
  NoDup order →
  fetch_range w order st = (st', None) →
  trace st' = trace st ++ (EvClone <$> filter (λ u, needs_fetch (table st) u = true) order).
Proof.
  revert st. induction order as [|u0 rest IH]; intros st Hnd Hf; simpl in Hf.
  - injection Hf as <-. by rewrite filter_nil, app_nil_r.
  - apply NoDup_cons in Hnd as [Hnin Hnd]. rewrite filter_cons.
    destruct (table st !! u0) as [ch|] eqn:Hu0.
    + destruct (0 <? Z.of_nat (length (Commits ch))) eqn:Hlen.
      * rewrite decide_False; [by apply IH|].
        unfold needs_fetch. rewrite Hu0. intros Hb.
        apply bool_decide_eq_true in Hb. by rewrite Hb in Hlen.
      * assert (Commits ch = []) as Hnil.
        { apply Z.ltb_ge in Hlen. destruct (Commits ch); [done|simpl in Hlen; lia]. }
        rewrite decide_True
          by (unfold needs_fetch; rewrite Hu0; by apply bool_decide_eq_true).
        destruct (history w u0) as [times [e|]] eqn:Hh; simpl in Hf; [done|].
        apply IH in Hf; [|done]. simpl in Hf. rewrite Hf, <- app_assoc. simpl.
        do 3 f_equal. apply filter_Forall_eq. apply Forall_forall. intros u Hu.
        unfold needs_fetch. rewrite lookup_insert_ne; [done|]. by intros ->.
    + rewrite decide_False by (unfold needs_fetch; by rewrite Hu0). by apply IH.
Qed.

(** Every run ends in one of the four ways. *)
Lemma run_on_ends config w s ft :
  loaded config w s ft → ends w s ft (run_on config w s).
Proof.
  unfold loaded, run_on. intros ->.
  destruct (fetch_range w (fetch_order s) (mkRunState ft false [])) as [st1 [e|]] eqn:Hf.
  { pose proof Hf as Hf'.
    apply fetch_range_err in Hf as (us & u & Htr & Hu & Hus). simpl in Htr.
    pose proof (fetch_range_needed _ _ _ _ _ (us ++ [u]) Hf') as Hneed. simpl in Hneed.
    rewrite Htr, fmap_app in Hneed. specialize (Hneed eq_refl).
    rewrite Htr. apply ends_fetch_error; [|apply Hneed, elem_of_app; right; left|done].
    intros u' Hu'. split; [|auto]. apply Hneed, elem_of_app. by left. }
  pose proof (fetch_range_after _ _ _ _ Hf) as Ht.
  pose proof (λ Hnd, fetch_range_clones _ _ _ _ Hnd Hf) as Hcl.
  pose proof (λ us, fetch_range_needed _ _ _ _ _ us Hf) as Hneed.
  apply fetch_range_inv in Hf as (us & Htr & _ & _ & Hok & Hupd).
  destruct st1 as [t1 upd1 tr1]. simpl in *. subst t1 tr1 upd1.
  specialize (Hneed us eq_refl).
  assert (∀ u, u ∈ us → needs_fetch ft u = true ∧ (history w u).2 = None) as Hus'
    by (intros u Hu; split; auto).
  assert (NoDup (fetch_order s) →
          us = filter (λ u, needs_fetch ft u = true) (fetch_order s)) as Hus.
  { intros Hnd. specialize (Hcl Hnd).
    assert (Inj (=) (=) EvClone) by (intros ?? [=]; done).
    by apply (inj (fmap EvClone)) in Hcl. }
  clear Hcl.
  destruct (decide (us = [])) as [->|Hne].
  - assert (fetched_and_saved w s ft [] []) as Hfs.
    { split; [done|]. split; [done|]. split; [done|].
      intros f Hin. by apply not_elem_of_nil in Hin. }
    simpl.
    destruct (display_range w s (display_order s) _) as [st3 [e|]] eqn:Hd.
    + apply display_range_err in Hd as (pre & u & ch & post & -> & Hds & Hdu & Hpre). simpl.
      by apply (ends_display_error _ _ _ [] [] pre u ch post).
    + apply display_range_ok in Hd as (_ & _ & -> & Hall). simpl in *.
      by apply (ends_completed _ _ _ [] []).
  - rewrite bool_decide_eq_true_2 by done. simpl.
    destruct (save_file w (after_fetch w (fetch_order s) ft)) as [e|] eqn:Hs.
    + simpl. by apply ends_save_error.
    + assert (fetched_and_saved w s ft us [after_fetch w (fetch_order s) ft]) as Hfs.
      { split; [done|]. split; [done|]. split; [by rewrite decide_False|].
        intros f Hin. by apply list_elem_of_singleton in Hin as ->. }
      destruct (display_range w s (display_order s) _) as [st3 [e|]] eqn:Hd.
      * apply display_range_err in Hd as (pre & u & ch & post & -> & Hds & Hdu & Hpre).
        simpl in *. rewrite <- !app_assoc.
        by apply (ends_display_error _ _ _ us [after_fetch w (fetch_order s) ft]
                    pre u ch post).
      * apply display_range_ok in Hd as (_ & _ & -> & Hall). simpl in *.
        rewrite <- !app_assoc.
        by apply (ends_completed _ _ _ us [after_fetch w (fetch_order s) ft]).
Qed.

(** The clones, the saves and the displays of a trace of a run. *)
Lemma clones_trace us sv ds :
  (∀ ev, ev ∈ ds → ∃ u ch, ev = EvDisplay u ch) →
  clones ((EvClone <$> us) ++ (EvSave <$> sv) ++ ds) = us.
Proof.
  intros Hds. unfold clones. induction us as [|u us IH]; simpl; [|by f_equal].
  induction sv as [|f sv IH]; simpl; [|done].
  induction ds as [|ev ds IH]; [done|]. simpl.
  destruct (Hds ev) as (u & ch & ->); [left|]. simpl. apply IH.
  intros ev' Hev'. apply Hds. by right.
Qed.

Lemma displays_events ft order ev :
  ev ∈ displays ft order → ∃ u ch, ev = EvDisplay u ch ∧ u ∈ order ∧ ft !! u = Some ch.
Proof.
  unfold displays. rewrite list_elem_of_omap. intros (u & Hin & Hev).
  destruct (ft !! u) as [ch|] eqn:Hu; [|done]. injection Hev as <-. eauto.
Qed.

Lemma displays_elem ft order u ch :
  EvDisplay u ch ∈ displays ft order ↔ u ∈ order ∧ ft !! u = Some ch.
Proof.
  split.
  - intros Hin. apply displays_events in Hin as (u' & ch' & [= -> ->] & Hrest). done.
  - intros [Hin Hu]. unfold displays. rewrite list_elem_of_omap. exists u.
    by rewrite Hu.
Qed.

Lemma ends_inv w s ft tr r :
  ends w s ft (tr, r) →
  (∃ e ev, r = Returned (Some e) ∧ failed w s ev = Some e ∧
     ((∃ u, ev = EvClone u ∧ needs_fetch ft u = true) ∨
      (ev = EvSave (after_fetch w (fetch_order s) ft) ∧
       ∃ u, needs_fetch ft u = true ∧ (history w u).2 = None) ∨
      (∃ u ch, ev = EvDisplay u ch ∧
         after_fetch w (fetch_order s) ft !! u = Some ch))) ∨
  (∃ us sv, r = Returned None ∧
     tr = (EvClone <$> us) ++ (EvSave <$> sv)
            ++ displays (after_fetch w (fetch_order s) ft) (display_order s) ∧
     fetched_and_saved w s ft us sv ∧
     ∀ ev, ev ∈ displays (after_fetch w (fetch_order s) ft) (display_order s) →
       failed w s ev = None).
Proof.
  inversion 1 as [us u e Hus Hnu Hu|us e Hne Hus Hsv
                 |us sv pre u ch post e Hfs Hds Hp Hd|us sv Hfs Hok]; subst.
  - left. exists e, (EvClone u). split; [done|]. split; [done|]. left. eauto.
  - left. exists e, (EvSave (after_fetch w (fetch_order s) ft)).
    split; [done|]. split; [done|]. right; left. split; [done|].
    destruct us as [|u us']; [done|]. exists u. apply Hus. left.
  - left. exists e, (EvDisplay u ch). split; [done|]. split; [done|]. right; right.
    exists u, ch. split; [done|].
    assert (EvDisplay u ch ∈ displays (after_fetch w (fetch_order s) ft) (display_order s))
      as Hin by (rewrite Hds, !elem_of_app; right; left; left).
    by apply displays_elem in Hin as [_ ?].
  - right. by exists us, sv.
Qed.

Lemma displayed_trace_keys us sv ft order :
  (∀ u, u ∈ order → is_Some (ft !! u)) →
  displayed ((EvClone <$> us) ++ (EvSave <$> sv) ++ displays ft order) = order.
Proof.
  intros Hall. unfold displayed. induction us as [|u us IH]; simpl; [|done].
  induction sv as [|f sv IH]; simpl; [|done].
  unfold displays. induction order as [|u order IH]; [done|]. simpl.
  destruct (Hall u) as [ch ->]; [left|]. simpl. f_equal. apply IH.
  intros u' Hu'. apply Hall. by right.
Qed.

(** The saves of a trace of clones, saves and displays. *)
Lemma save_in_trace us sv ds f :
  (∀ ev, ev ∈ ds → ∃ u ch, ev = EvDisplay u ch) →
  EvSave f ∈ (EvClone <$> us) ++ (EvSave <$> sv) ++ ds → f ∈ sv.
Proof.
  intros Hds. rewrite !elem_of_app, !list_elem_of_fmap.
  intros [(u & [=] & _)|[(f' & [= ->] & Hin)|Hin]]; [done|].
  by destruct (Hds _ Hin) as (u & ch & [=]).
Qed.

Lemma after_fetch_lookup w order ft u :
  after_fetch w order ft !! u =
    (λ ch, if decide (u ∈ order) then fetched w u ch else ch) <$> ft !! u.
Proof. unfold after_fetch. rewrite map_lookup_imap. by destruct (ft !! u). Qed.

Lemma after_fetch_range w order ft u :
  range_order ft order → after_fetch w order ft !! u = fetched w u <$> ft !! u.
Proof.
  intros Hord. rewrite after_fetch_lookup. destruct (ft !! u) as [ch|] eqn:Hu; [|done].
  simpl. rewrite decide_True; [done|]. apply (range_order_elem ft); [done|by eexists].
Qed.

Lemma after_fetch_order w order1 order2 ft :
  range_order ft order1 → range_order ft order2 →
  after_fetch w order1 ft = after_fetch w order2 ft.
Proof.
  intros H1 H2. apply map_eq. intros u. by rewrite !after_fetch_range.
Qed.

Lemma fetched_Name w u ch : Name (fetched w u ch) = Name ch.
Proof. unfold fetched. by destruct (decide (Commits ch = [])). Qed.

Lemma after_fetch_Name w order ft u :
  Name <$> after_fetch w order ft !! u = Name <$> ft !! u.
Proof.
  rewrite after_fetch_lookup. destruct (ft !! u) as [ch|]; [|done]. simpl.
  destruct (decide (u ∈ order)); [by rewrite fetched_Name|done].
Qed.

Lemma needs_fetch_empty ft u :
  needs_fetch ft u = true ↔ Commits <$> ft !! u = Some [].
Proof.
  unfold needs_fetch. destruct (ft !! u) as [ch|]; simpl; [|done].
  rewrite bool_decide_eq_true. split; [by intros ->|by intros [= ->]].
Qed.

(** ** Runs, in full *)

(** A run stops at the first call that fails and returns its error: when
    it returns nil no call it made failed; when it returns an error,
    either [Load] returned it and nothing else was done, or the last call
    of the run returned it and every call before succeeded. *)
Theorem run_stops_at_first_error (config : FileType) (w : World) (s : Schedule) :
  (∀ tr, run_on config w s = (tr, Returned None) →
     ∀ ev, ev ∈ tr → failed w s ev = None) ∧
  (∀ tr e, run_on config w s = (tr, Returned (Some e)) →
     (tr = [] ∧ ∃ ft, Load (load_order s) config (cache_file w) = Returned (Some e, ft)) ∨
     (∃ pre ev, tr = pre ++ [ev] ∧ failed w s ev = Some e ∧
        ∀ ev', ev' ∈ pre → failed w s ev' = None)).
Proof.
  assert (∀ ft us sv, (∀ u, u ∈ us → needs_fetch ft u = true ∧ (history w u).2 = None) →
            (∀ f, f ∈ sv → save_file w f = None) →
            ∀ ev, ev ∈ (EvClone <$> us) ++ (EvSave <$> sv) → failed w s ev = None) as Hpre.
  { intros ft us sv Hus Hsv ev Hev. apply elem_of_app in Hev as [Hev|Hev];
      apply list_elem_of_fmap in Hev as (x & -> & Hx); simpl; [by apply Hus|auto]. }
  destruct (loaded_or_not config w s) as [[ft Hl]|Hn].
  - pose proof (run_on_ends _ _ _ _ Hl) as He. split.
    + intros tr Hr. rewrite Hr in He. inversion He as [| | |us sv Hfs Hok]; subst.
      destruct Hfs as (Hus & _ & _ & Hsv).
      intros ev Hev. rewrite app_assoc in Hev. apply elem_of_app in Hev as [Hev|Hev];
        [by apply (Hpre ft us sv)|auto].
    + intros tr e Hr. rewrite Hr in He. right.
      inversion He as [us u e' Hus Hnu Hu|us e' Hne Hus Hsv
                      |us sv pre u ch post e' Hfs Hds Hp Hd|]; subst.
      * exists (EvClone <$> us), (EvClone u). split; [done|]. split; [done|].
        intros ev Hev. apply (Hpre ft us []); [done| |by rewrite app_nil_r].
        intros f Hf. by apply not_elem_of_nil in Hf.
      * exists (EvClone <$> us), (EvSave (after_fetch w (fetch_order s) ft)).
        split; [done|]. split; [done|].
        intros ev Hev. apply (Hpre ft us []); [done| |by rewrite app_nil_r].
        intros f Hf. by apply not_elem_of_nil in Hf.
      * destruct Hfs as (Hus & _ & _ & Hsv).
        exists ((EvClone <$> us) ++ (EvSave <$> sv) ++ pre), (EvDisplay u ch).
        split; [by rewrite <- !app_assoc|]. split; [done|].
        intros ev Hev. rewrite app_assoc in Hev. apply elem_of_app in Hev as [Hev|Hev];
          [by apply (Hpre ft us sv)|auto].
  - unfold loaded in Hn. unfold run_on.
    destruct (Load (load_order s) config (cache_file w)) as [[[e0|] ft]|] eqn:HL.
    + split; [done|]. intros tr e [= <- <-]. left. split; [done|]. by exists ft.
    + by destruct (Hn ft).
    + split; done.
Qed.

(** What a run writes to the cache.  [Save] is called at most once, after
    the last clone and before the first display, with the table in which
    every identifier of the configuration stands with its configured name
    and with the commits [Load] gave it or, when those were none, the
    commits of its history; the charts displayed afterwards are those of
    the table saved. *)
Theorem run_saves_fetched_table (config : FileType) (w : World) (s : Schedule)
    (ft f : FileType) :
  loaded config w s ft →
  range_order ft (fetch_order s) →
  EvSave f ∈ (run_on config w s).1 →
  (∀ u, f !! u = fetched w u <$> ft !! u) ∧
  dom f = dom config ∧
  (∀ u, Name <$> f !! u = Name <$> config !! u) ∧
  ∃ us ds,
    (run_on config w s).1 = (EvClone <$> us) ++ [EvSave f] ++ ds ∧
    us ≠ [] ∧
    (∀ u, u ∈ us → (history w u).2 = None ∧ Commits <$> ft !! u = Some []) ∧
    (∀ ev, ev ∈ ds → ∃ u ch, ev = EvDisplay u ch ∧ f !! u = Some ch).
Proof.
  intros Hl Hord Hin.
  assert (∀ u, Name <$> after_fetch w (fetch_order s) ft !! u = Name <$> config !! u)
    as Hname.
  { intros u. rewrite after_fetch_Name. apply (Load_names _ _ _ _ _ u Hl). }
  assert (dom (after_fetch w (fetch_order s) ft) = dom config) as Hdom.
  { apply set_eq. intros u. rewrite !elem_of_dom, <- !(fmap_is_Some Name), Hname. done. }
  assert (∀ ds, (∃ post, displays (after_fetch w (fetch_order s) ft) (display_order s)
                         = ds ++ post) →
            ∀ ev, ev ∈ ds → ∃ u ch, ev = EvDisplay u ch ∧
                                   after_fetch w (fetch_order s) ft !! u = Some ch) as Hshown.
  { intros ds [post Heq] ev Hev.
    destruct (displays_events (after_fetch w (fetch_order s) ft) (display_order s) ev)
      as (u & ch & -> & _ & Hu); [|eauto].
    rewrite Heq. apply elem_of_app. by left. }
  pose proof (run_on_ends _ _ _ _ Hl) as He.
  destruct (run_on config w s) as [tr r]. simpl in *.
  inversion He as [us u e Hus Hnu Hu|us e Hne Hus Hsv
                  |us sv pre u ch post e Hfs Hds Hp Hd|us sv Hfs Hok]; subst.
  - exfalso. rewrite elem_of_app, list_elem_of_fmap, list_elem_of_singleton in Hin.
    by destruct Hin as [(u' & [=] & _)|[=]].
  - assert (f = after_fetch w (fetch_order s) ft) as ->.
    { apply elem_of_app in Hin as [Hin|Hin].
      - by apply list_elem_of_fmap in Hin as (u' & [=] & _).
      - by apply list_elem_of_singleton in Hin as [= ->]. }
    split; [intros u; by apply after_fetch_range|]. split; [done|]. split; [done|].
    exists us, []. split; [done|]. split; [done|]. split.
    + intros u Hu. destruct (Hus u Hu) as [Hn Hh]. by apply needs_fetch_empty in Hn.
    + intros ev Hev. by apply not_elem_of_nil in Hev.
  - destruct Hfs as (Hus & _ & Hsv & Hsvok).
    assert (∀ ev, ev ∈ pre ++ [EvDisplay u ch] → ∃ u' ch', ev = EvDisplay u' ch' ∧
              after_fetch w (fetch_order s) ft !! u' = Some ch') as Hds'.
    { apply Hshown. exists post. by rewrite <- app_assoc. }
    apply save_in_trace in Hin; [|intros ev Hev; destruct (Hds' ev Hev) as (?&?&?&?); eauto].
    destruct (decide (us = [])) as [->|Hne]; subst sv;
      [by apply not_elem_of_nil in Hin|].
    apply list_elem_of_singleton in Hin as ->.
    split; [intros u'; by apply after_fetch_range|]. split; [done|]. split; [done|].
    exists us, (pre ++ [EvDisplay u ch]). split; [done|]. split; [done|]. split; [|done].
    intros u' Hu'. destruct (Hus u' Hu') as [Hn Hh]. by apply needs_fetch_empty in Hn.
  - destruct Hfs as (Hus & _ & Hsv & Hsvok).
    assert (∀ ev, ev ∈ displays (after_fetch w (fetch_order s) ft) (display_order s) →
              ∃ u' ch', ev = EvDisplay u' ch' ∧
              after_fetch w (fetch_order s) ft !! u' = Some ch') as Hds'.
    { apply Hshown. exists []. by rewrite app_nil_r. }
    apply save_in_trace in Hin; [|intros ev Hev; destruct (Hds' ev Hev) as (?&?&?&?); eauto].
    destruct (decide (us = [])) as [->|Hne]; subst sv;
      [by apply not_elem_of_nil in Hin|].
    apply list_elem_of_singleton in Hin as ->.
    split; [intros u'; by apply after_fetch_range|]. split; [done|]. split; [done|].
    exists us, (displays (after_fetch w (fetch_order s) ft) (display_order s)).
    split; [done|]. split; [done|]. split; [|done].
    intros u' Hu'. destruct (Hus u' Hu') as [Hn Hh]. by apply needs_fetch_empty in Hn.
Qed.

Lemma run_saves_fetched_table_witness :
  (∀ u, example_saved !! u = fetched example_world u <$> example_loaded !! u) ∧
  dom example_saved = dom example_config ∧
  (∀ u, Name <$> example_saved !! u = Name <$> example_config !! u) ∧
  ∃ us ds,
    (run_on example_config example_world example_schedule).1 =
      (EvClone <$> us) ++ [EvSave example_saved] ++ ds ∧
    us ≠ [] ∧
    (∀ u, u ∈ us → (history example_world u).2 = None ∧
                   Commits <$> example_loaded !! u = Some []) ∧
    (∀ ev, ev ∈ ds → ∃ u ch, ev = EvDisplay u ch ∧ example_saved !! u = Some ch).
Proof.
  apply (run_saves_fetched_table example_config example_world example_schedule
           example_loaded example_saved).
  - exact example_world_loaded.
  - unfold range_order. vm_compute. reflexivity.
  - rewrite example_run_trace. simpl. right. left.
Defined.

(** A run that returns nil, with [ft] the table as [Load] left it: the
    identifiers cloned are those without commits in [ft], in the order of
    the fetch loop; the cache was saved exactly when there was one; and
    every identifier was displayed once, in the order of the display
    loop, with the commits of [ft] or, when those were none, the commits
    of its history. *)
Theorem run_completed (config : FileType) (w : World) (s : Schedule) (ft : FileType) :
  loaded config w s ft →
  range_order ft (fetch_order s) →
  range_order ft (display_order s) →
  (run_on config w s).2 = Returned None →
  clones (run_on config w s).1 = filter (λ u, needs_fetch ft u = true) (fetch_order s) ∧
  (saved (run_on config w s).1 ↔ ∃ u, needs_fetch ft u = true) ∧
  displayed (run_on config w s).1 = display_order s ∧
  (∀ u ch, EvDisplay u ch ∈ (run_on config w s).1 ↔ fetched w u <$> ft !! u = Some ch).
Proof.
  intros Hl Hfo Hdo Hres.
  pose proof (run_on_ends _ _ _ _ Hl) as He.
  destruct (run_on config w s) as [tr r]. simpl in *. subst r.
  inversion He as [| | |us sv Hfs Hok]; subst.
  destruct Hfs as (Hus & Hfilter & Hsv & Hsvok).
  assert (NoDup (fetch_order s)) as Hnd.
  { unfold range_order in Hfo. rewrite Hfo. apply NoDup_elements. }
  specialize (Hfilter Hnd).
  set (f := after_fetch w (fetch_order s) ft) in *.
  assert (∀ ev, ev ∈ displays f (display_order s) → ∃ u ch, ev = EvDisplay u ch) as Hds.
  { intros ev Hev. apply displays_events in Hev as (u & ch & -> & _). eauto. }
  split; [by rewrite clones_trace|]. split; [|split].
  - unfold saved. split.
    + intros [f' Hin]. apply save_in_trace in Hin; [|done].
      destruct us as [|u us']; [subst sv; by apply not_elem_of_nil in Hin|].
      exists u. apply Hus. left.
    + intros [u Hu]. exists f. rewrite !elem_of_app. right; left.
      assert (u ∈ us) as Hin.
      { rewrite Hfilter. apply list_elem_of_filter. split; [done|].
        apply (range_order_elem ft); [done|]. unfold needs_fetch in Hu.
        by destruct (ft !! u). }
      rewrite Hsv, decide_False by (intros ->; by apply not_elem_of_nil in Hin).
      apply list_elem_of_singleton. done.
  - apply displayed_trace_keys. intros u Hu.
    apply (range_order_elem ft) in Hu; [|done]. unfold f.
    rewrite after_fetch_range by done. by apply fmap_is_Some.
  - intros u ch. rewrite <- (after_fetch_range w (fetch_order s)) by done. fold f.
    rewrite !elem_of_app, !list_elem_of_fmap, displays_elem. split.
    + intros [(u' & [=] & _)|[(f' & [=] & _)|[_ Hu]]]. done.
    + intros Hu. right; right. split; [|done].
      apply (range_order_elem ft); [done|]. unfold f in Hu.
      rewrite after_fetch_range in Hu by done. apply (fmap_is_Some (fetched w u)).
      by rewrite Hu.
Qed.

Lemma run_completed_witness :
  clones (run_on example_config example_world example_schedule).1 =
    filter (λ u, needs_fetch example_loaded u = true) (fetch_order example_schedule) ∧
  (saved (run_on example_config example_world example_schedule).1 ↔
   ∃ u, needs_fetch example_loaded u = true) ∧
  displayed (run_on example_config example_world example_schedule).1 =
    display_order example_schedule ∧
  (∀ u ch, EvDisplay u ch ∈ (run_on example_config example_world example_schedule).1 ↔
           fetched example_world u <$> example_loaded !! u = Some ch).
Proof.
  apply (run_completed example_config example_world example_schedule example_loaded).
  - exact example_world_loaded.
  - unfold range_order. vm_compute. reflexivity.
  - unfold range_order. vm_compute. reflexivity.
  - by rewrite example_run_trace.
Defined.

(** The cache closes the loop.  When a run has saved the table [f] and
    the next run finds a cache file that decodes to [f], the next run
    loads exactly [f]; and when every chart of [f] has a commit, it calls
    neither the history provider nor [Save], and displays the charts of
    [f]. *)
Theorem second_run_uses_cache (config : FileType) (w1 w2 : World) (s1 s2 : Schedule)
    (f : FileType) :
  EvSave f ∈ (run_on config w1 s1).1 →
  cache_file w2 = FileDecoded (Some <$> f) →
  range_order config (load_order s2) →
  loaded config w2 s2 f ∧
  (map_Forall (λ _ ch, Commits ch ≠ []) f →
   (∀ u, ¬ cloned u (run_on config w2 s2).1) ∧
   ¬ saved (run_on config w2 s2).1 ∧
   (∀ u ch, EvDisplay u ch ∈ (run_on config w2 s2).1 → f !! u = Some ch)).
Proof.
  intros Hin Hcache Hord.
  assert (∀ u, Name <$> f !! u = Name <$> config !! u) as Hname.
  { destruct (loaded_or_not config w1 s1) as [[ft Hl]|Hn].
    - pose proof (run_on_ends _ _ _ _ Hl) as He.
      destruct (run_on config w1 s1) as [tr r]. simpl in *.
      assert (f = after_fetch w1 (fetch_order s1) ft) as ->.
      { inversion He as [us u e Hus Hnu Hu|us e Hne Hus Hsv
                        |us sv pre u ch post e Hfs Hds Hp Hd|us sv Hfs Hok]; subst.
        - rewrite elem_of_app, list_elem_of_fmap, list_elem_of_singleton in Hin.
          by destruct Hin as [(u' & [=] & _)|[=]].
        - apply elem_of_app in Hin as [Hin|Hin].
          + by apply list_elem_of_fmap in Hin as (u' & [=] & _).
          + by apply list_elem_of_singleton in Hin as [= ->].
        - destruct Hfs as (_ & _ & Hsv & _).
          apply save_in_trace in Hin.
          + destruct (decide (us = [])); subst sv;
              [by apply not_elem_of_nil in Hin|by apply list_elem_of_singleton in Hin].
          + intros ev Hev.
            destruct (displays_events (after_fetch w1 (fetch_order s1) ft)
                        (display_order s1) ev) as (u' & ch' & -> & _); [|eauto].
            rewrite Hds, app_assoc. apply elem_of_app. by left.
        - destruct Hfs as (_ & _ & Hsv & _).
          apply save_in_trace in Hin.
          + destruct (decide (us = [])); subst sv;
              [by apply not_elem_of_nil in Hin|by apply list_elem_of_singleton in Hin].
          + intros ev Hev. apply displays_events in Hev as (u' & ch' & -> & _). eauto. }
      intros u. rewrite after_fetch_Name. apply (Load_names _ _ _ _ _ u Hl).
    - rewrite (run_on_not_loaded _ _ _ Hn) in Hin. by apply not_elem_of_nil in Hin. }
  assert (loaded config w2 s2 f) as Hl2.
  { unfold loaded. rewrite Hcache. apply Load_image; [done|].
    intros k Hk. by apply (range_order_elem config). }
  split; [done|]. intros Hall.
  destruct (run_on_trace _ _ _ _ Hl2) as (us & sv & ds & Htr & Hempty & _ & Hsv).
  pose proof (run_on_ends _ _ _ _ Hl2) as He.
  assert (us = []) as ->.
  { destruct us as [|u us']; [done|]. destruct (Hempty u) as (c & Hc & Hc'); [left|].
    by destruct (Hall u c Hc). }
  assert (sv = []) as ->.
  { destruct sv as [|f' sv']; [done|]. by destruct Hsv as [[? _] _]. }
  split; [|split].
  - intros u Hc. unfold cloned in Hc. rewrite Htr in Hc. simpl in Hc.
    apply list_elem_of_fmap in Hc as (d & [=] & _).
  - intros [f' Hf']. rewrite Htr in Hf'. simpl in Hf'.
    apply list_elem_of_fmap in Hf' as (d & [=] & _).
  - clear Htr Hsv Hempty ds. intros u ch Hd.
    destruct (run_on config w2 s2) as [tr r]. simpl in *.
    assert (after_fetch w2 (fetch_order s2) f = f) as Haf.
    { apply map_eq. intros k. rewrite after_fetch_lookup.
      destruct (f !! k) as [c|] eqn:Hk; [|done]. simpl. f_equal.
      destruct (decide (k ∈ fetch_order s2)); [|done].
      unfold fetched. rewrite decide_False; [done|]. by apply (Hall k). }
    assert (∀ l, (∃ post, displays f (display_order s2) = l ++ post) →
              EvDisplay u ch ∈ l → f !! u = Some ch) as Hshown.
    { intros l [post Heq] Hev.
      assert (EvDisplay u ch ∈ displays f (display_order s2)) as Hev'
        by (rewrite Heq; apply elem_of_app; by left).
      by apply displays_elem in Hev' as [_ ?]. }
    assert (∀ us sv l, EvDisplay u ch ∈ (EvClone <$> us) ++ (EvSave <$> sv) ++ l →
              EvDisplay u ch ∈ l) as Hsplit.
    { intros us sv l Hev. rewrite !elem_of_app, !list_elem_of_fmap in Hev.
      by destruct Hev as [(? & [=] & _)|[(? & [=] & _)|?]]. }
    inversion He as [us u' e Hus Hnu Hu|us e Hne Hus Hsv'
                    |us sv pre u' ch' post e Hfs Hds Hp Hdd|us sv Hfs Hok]; subst;
      rewrite ?Haf in *.
    + apply (Hsplit us [] [EvClone u']) in Hd. by apply list_elem_of_singleton in Hd.
    + apply (Hsplit us [f] []) in Hd. by apply not_elem_of_nil in Hd.
    + apply (Hshown (pre ++ [EvDisplay u' ch'])).
      * exists post. by rewrite <- app_assoc.
      * by apply (Hsplit us sv).
    + apply (Hshown (displays f (display_order s2))).
      * exists []. by rewrite app_nil_r.
      * by apply (Hsplit us sv).
Qed.

Lemma second_run_uses_cache_witness :
  loaded example_config second_world example_schedule example_saved ∧
  (map_Forall (λ _ ch, Commits ch ≠ []) example_saved →
   (∀ u, ¬ cloned u (run_on example_config second_world example_schedule).1) ∧
   ¬ saved (run_on example_config second_world example_schedule).1 ∧
   (∀ u ch, EvDisplay u ch ∈ (run_on example_config second_world example_schedule).1 →
            example_saved !! u = Some ch)).
Proof.
  apply (second_run_uses_cache example_config example_world second_world
           example_schedule example_schedule example_saved).
  - rewrite example_run_trace. simpl. right. left.
  - reflexivity.
  - unfold range_order. reflexivity.
Defined.

(** [Save] and the run.  [Save] closes the file it has created whether or
    not [Encode] failed, encodes nothing in a file it could not create,
    and returns nil only when the file was created, encoded and closed
    without error, the error of [Encode] before that of [Close].  A run
    that has to fetch therefore returns nil only if all three succeeded,
    and when one of them fails for the table it saves, it returns that
    error and displays nothing. *)
Theorem run_depends_on_Save (config : FileType) (env : SaveEnv) (w : World)
    (s : Schedule) (ft : FileType) :
  loaded config (with_Save env w) s ft →
  range_order ft (fetch_order s) →
  (∃ u, needs_fetch ft u = true) →
  (∀ f, (create_result env = None →
           (Save env f).1 = [FileCreate; FileEncode f; FileClose]) ∧
        (∀ e, create_result env = Some e → Save env f = ([FileCreate], Some e)) ∧
        (∀ e, create_result env = None → encode_result env f = Some e →
           (Save env f).2 = Some e) ∧
        ((Save env f).2 = None ↔
           create_result env = None ∧ encode_result env f = None ∧
           close_result env = None)) ∧
  ((run_on config (with_Save env w) s).2 = Returned None →
     create_result env = None ∧
     encode_result env (after_fetch w (fetch_order s) ft) = None ∧
     close_result env = None) ∧
  (∀ f e, EvSave f ∈ (run_on config (with_Save env w) s).1 →
     (Save env f).2 = Some e →
     (run_on config (with_Save env w) s).2 = Returned (Some e) ∧
     ∀ u ch, EvDisplay u ch ∉ (run_on config (with_Save env w) s).1).
Proof.
  intros Hl Hord [u0 Hu0].
  assert (∀ f, (Save env f).2 = None ↔
            create_result env = None ∧ encode_result env f = None ∧
            close_result env = None) as HSave.
  { intros f. unfold Save.
    destruct (create_result env), (encode_result env f), (close_result env); simpl;
      split; (done || by intros (? & ? & ?)). }
  split.
  { intros f. split; [|split; [|split; [|apply HSave]]].
    - intros Hc. unfold Save. by rewrite Hc.
    - intros e Hc. unfold Save. by rewrite Hc.
    - intros e Hc He. unfold Save. by rewrite Hc, He. }
  pose proof (run_on_ends _ _ _ _ Hl) as He.
  destruct (run_on config (with_Save env w) s) as [tr r]. simpl in *.
  assert (∀ ds, (∃ post, displays (after_fetch w (fetch_order s) ft) (display_order s)
                         = ds ++ post) →
            ∀ ev, ev ∈ ds → ∃ u ch, ev = EvDisplay u ch) as Hshown.
  { intros ds [post Heq] ev Hev.
    destruct (displays_events (after_fetch w (fetch_order s) ft) (display_order s) ev)
      as (u & ch & -> & _); [|eauto].
    rewrite Heq. apply elem_of_app. by left. }
  split.
  - intros ->. inversion He as [| | |us sv Hfs Hok]; subst.
    change (after_fetch (with_Save env w) (fetch_order s) ft)
      with (after_fetch w (fetch_order s) ft) in *.
    destruct Hfs as (_ & Hfilter & Hsv & Hsvok).
    assert (us ≠ []) as Hne.
    { rewrite Hfilter by (unfold range_order in Hord; rewrite Hord; apply NoDup_elements).
      intros Hnil.
      assert (u0 ∈ filter (λ u, needs_fetch ft u = true) (fetch_order s)) as Hin.
      { apply list_elem_of_filter. split; [done|].
        apply (range_order_elem ft); [done|]. unfold needs_fetch in Hu0.
        by destruct (ft !! u0). }
      rewrite Hnil in Hin. by apply not_elem_of_nil in Hin. }
    rewrite decide_False in Hsv by done. subst sv.
    apply HSave. apply (Hsvok (after_fetch w (fetch_order s) ft)). left.
  - intros f e Hin Hs.
    inversion He as [us u e' Hus Hnu Hu|us e' Hne Hus Hsv
                    |us sv pre u ch post e' Hfs Hds Hp Hd|us sv Hfs Hok]; subst;
      change (after_fetch (with_Save env w) (fetch_order s) ft)
        with (after_fetch w (fetch_order s) ft) in *.
    + exfalso. rewrite elem_of_app, list_elem_of_fmap, list_elem_of_singleton in Hin.
      by destruct Hin as [(u' & [=] & _)|[=]].
    + assert (f = after_fetch w (fetch_order s) ft) as ->.
      { apply elem_of_app in Hin as [Hin|Hin].
        - by apply list_elem_of_fmap in Hin as (u' & [=] & _).
        - by apply list_elem_of_singleton in Hin as [= ->]. }
      simpl in Hsv. rewrite Hs in Hsv. injection Hsv as ->. split; [done|].
      intros u ch Hd. rewrite elem_of_app, list_elem_of_fmap, list_elem_of_singleton in Hd.
      by destruct Hd as [(u' & [=] & _)|[=]].
    + exfalso. destruct Hfs as (_ & _ & _ & Hsvok).
      apply save_in_trace in Hin.
      * apply Hsvok in Hin. simpl in Hin. congruence.
      * apply Hshown. exists post. by rewrite <- app_assoc.
    + exfalso. destruct Hfs as (_ & _ & _ & Hsvok).
      apply save_in_trace in Hin.
      * apply Hsvok in Hin. simpl in Hin. congruence.
      * apply Hshown. exists []. by rewrite app_nil_r.
Qed.

Lemma run_depends_on_Save_witness :
  (∀ f, (create_result close_fails = None →
           (Save close_fails f).1 = [FileCreate; FileEncode f; FileClose]) ∧
        (∀ e, create_result close_fails = Some e →
           Save close_fails f = ([FileCreate], Some e)) ∧
        (∀ e, create_result close_fails = None → encode_result close_fails f = Some e →
           (Save close_fails f).2 = Some e) ∧
        ((Save close_fails f).2 = None ↔
           create_result close_fails = None ∧ encode_result close_fails f = None ∧
           close_result close_fails = None)) ∧
  ((run_on example_config (with_Save close_fails example_world) example_schedule).2 =
     Returned None →
     create_result close_fails = None ∧
     encode_result close_fails
       (after_fetch example_world (fetch_order example_schedule) example_loaded) = None ∧
     close_result close_fails = None) ∧
  (∀ f e,
     EvSave f ∈ (run_on example_config (with_Save close_fails example_world)
                   example_schedule).1 →
     (Save close_fails f).2 = Some e →
     (run_on example_config (with_Save close_fails example_world) example_schedule).2 =
       Returned (Some e) ∧
     ∀ u ch, EvDisplay u ch ∉
       (run_on example_config (with_Save close_fails example_world) example_schedule).1).
Proof.
  apply (run_depends_on_Save example_config close_fails example_world example_schedule
           example_loaded).
  - by vm_compute.
  - unfold range_order. vm_compute. reflexivity.
  - exists "urlB"%string. by vm_compute.
Defined.

Lemma completed_in_any_order config w s1 s2 ft :
  loaded config w s1 ft → loaded config w s2 ft →
  range_order ft (fetch_order s1) → range_order ft (fetch_order s2) →
  range_order ft (display_order s1) → range_order ft (display_order s2) →
  agg_order s1 = agg_order s2 →
  (run_on config w s1).2 = Returned None →
  (run_on config w s2).2 = Returned None ∧
  (run_on config w s1).1 ≡ₚ (run_on config w s2).1.
Proof.
  intros Hl1 Hl2 Hf1 Hf2 Hd1 Hd2 Hagg Hres.
  pose proof (run_on_ends _ _ _ _ Hl1) as He1.
  pose proof (run_on_ends _ _ _ _ Hl2) as He2.
  pose proof (after_fetch_order w (fetch_order s2) (fetch_order s1) ft Hf2 Hf1) as Haf.
  destruct (run_on config w s1) as [tr1 r1], (run_on config w s2) as [tr2 r2].
  simpl in *.
  apply ends_inv in He1 as [(e & ev & -> & _)|(us1 & sv1 & _ & -> & Hfs1 & Hok1)]; [done|].
  apply ends_inv in He2. rewrite Haf in He2.
  set (f := after_fetch w (fetch_order s1) ft) in *.
  assert (∀ u, is_Some (f !! u) ↔ is_Some (ft !! u)) as Hdom.
  { intros u. unfold f. by rewrite after_fetch_range, fmap_is_Some. }
  assert (∀ s, range_order ft (fetch_order s) → NoDup (fetch_order s)) as Hnd.
  { intros s Hs. unfold range_order in Hs. rewrite Hs. apply NoDup_elements. }
  assert (∀ u ch, display w s2 u ch = display w s1 u ch) as Hdisp.
  { intros u ch. unfold display. by rewrite Hagg. }
  destruct Hfs1 as (Hus1 & Hfilter1 & Hsv1 & Hsvok1).
  specialize (Hfilter1 (Hnd _ Hf1)).
  assert (∀ u, needs_fetch ft u = true → u ∈ us1) as Hneeded.
  { intros u Hu. rewrite Hfilter1. apply list_elem_of_filter. split; [done|].
    apply (range_order_elem ft); [done|]. unfold needs_fetch in Hu. by destruct (ft !! u). }
  destruct He2 as [(e & ev & -> & Hfail & Hev)|(us2 & sv2 & -> & -> & Hfs2 & Hok2)].
  - exfalso. destruct Hev as [(u & -> & Hnu)|[(-> & u & Hnu & _)|(u & ch & -> & Hu)]].
    + destruct (Hus1 u (Hneeded u Hnu)) as [_ Hh]. simpl in Hfail. congruence.
    + apply Hneeded in Hnu. simpl in Hfail.
      rewrite decide_False in Hsv1 by (intros ->; by apply not_elem_of_nil in Hnu).
      rewrite (Hsvok1 f) in Hfail; [done|]. rewrite Hsv1. left.
    + simpl in Hfail. rewrite Hdisp in Hfail.
      assert (failed w s1 (EvDisplay u ch) = None) as Hnone; [|simpl in Hnone; congruence].
      apply Hok1, displays_elem. split; [|done].
      apply (range_order_elem ft); [done|]. apply Hdom. by eexists.
  - split; [done|].
    destruct Hfs2 as (Hus2 & Hfilter2 & Hsv2 & Hsvok2).
    specialize (Hfilter2 (Hnd _ Hf2)).
    assert (fetch_order s1 ≡ₚ fetch_order s2) as Hpf
      by (unfold range_order in Hf1, Hf2; by rewrite Hf1, Hf2).
    assert (display_order s1 ≡ₚ display_order s2) as Hpd
      by (unfold range_order in Hd1, Hd2; by rewrite Hd1, Hd2).
    assert (us1 ≡ₚ us2) as Hpu by (by rewrite Hfilter1, Hfilter2, Hpf).
    assert (sv1 = sv2) as ->.
    { rewrite Hsv1, Hsv2, Haf. fold f.
      destruct (decide (us1 = [])) as [Hn1|Hn1], (decide (us2 = [])) as [Hn2|Hn2];
        try done; exfalso.
      - rewrite Hn1 in Hpu. by apply Permutation_nil_l in Hpu.
      - rewrite Hn2 in Hpu. by apply Permutation_nil_r in Hpu. }
    unfold displays. by rewrite Hpu, Hpd.
Qed.

(** Go ranges over a map in an order of its choice, and the run does not
    depend on it: with the same table after [Load], whether the run
    returns nil is the same for every order of the fetch loop and of the
    display loop, and the runs that return nil have made the same calls,
    in another order at most: the same clones, the same save, the same
    displays. *)
Theorem run_iteration_order (config : FileType) (w : World) (s1 s2 : Schedule)
    (ft : FileType) :
  loaded config w s1 ft → loaded config w s2 ft →
  range_order ft (fetch_order s1) → range_order ft (fetch_order s2) →
  range_order ft (display_order s1) → range_order ft (display_order s2) →
  agg_order s1 = agg_order s2 →
  ((run_on config w s1).2 = Returned None ↔ (run_on config w s2).2 = Returned None) ∧
  ((run_on config w s1).2 = Returned None →
   (run_on config w s1).1 ≡ₚ (run_on config w s2).1 ∧
   clones (run_on config w s1).1 ≡ₚ clones (run_on config w s2).1 ∧
   (∀ f, EvSave f ∈ (run_on config w s1).1 ↔ EvSave f ∈ (run_on config w s2).1) ∧
   (∀ u ch, EvDisplay u ch ∈ (run_on config w s1).1 ↔
            EvDisplay u ch ∈ (run_on config w s2).1)).
Proof.
  intros Hl1 Hl2 Hf1 Hf2 Hd1 Hd2 Hagg. split.
  - split; intros Hres.
    + by apply (completed_in_any_order config w s1 s2 ft).
    + by apply (completed_in_any_order config w s2 s1 ft).
  - intros Hres.
    destruct (completed_in_any_order config w s1 s2 ft) as [_ Hperm]; try done.
    split; [done|]. split; [|split].
    + unfold clones. by rewrite Hperm.
    + intros f. by rewrite Hperm.
    + intros u ch. by rewrite Hperm.
Qed.

Lemma run_iteration_order_witness :
  ((run_on example_config example_world example_schedule).2 = Returned None ↔
   (run_on example_config example_world
      (mkSchedule ["urlA"; "urlB"] ["urlB"; "urlA"] ["urlB"; "urlA"]
         (agg_order example_schedule)))%string.2 = Returned None) ∧
  ((run_on example_config example_world example_schedule).2 = Returned None →
   (run_on example_config example_world example_schedule).1 ≡ₚ
   (run_on example_config example_world
      (mkSchedule ["urlA"; "urlB"] ["urlB"; "urlA"] ["urlB"; "urlA"]
         (agg_order example_schedule)))%string.1 ∧
   clones (run_on example_config example_world example_schedule).1 ≡ₚ
   clones (run_on example_config example_world
      (mkSchedule ["urlA"; "urlB"] ["urlB"; "urlA"] ["urlB"; "urlA"]
         (agg_order example_schedule)))%string.1 ∧
   (∀ f, EvSave f ∈ (run_on example_config example_world example_schedule).1 ↔
         EvSave f ∈ (run_on example_config example_world
      (mkSchedule ["urlA"; "urlB"] ["urlB"; "urlA"] ["urlB"; "urlA"]
         (agg_order example_schedule)))%string.1) ∧
   (∀ u ch, EvDisplay u ch ∈ (run_on example_config example_world example_schedule).1 ↔
            EvDisplay u ch ∈ (run_on example_config example_world
      (mkSchedule ["urlA"; "urlB"] ["urlB"; "urlA"] ["urlB"; "urlA"]
         (agg_order example_schedule)))%string.1)).
Proof.
  apply (run_iteration_order example_config example_world example_schedule
           (mkSchedule ["urlA"; "urlB"] ["urlB"; "urlA"] ["urlB"; "urlA"]
              (agg_order example_schedule))%string example_loaded).
  - exact example_world_loaded.
  - by vm_compute.
  - unfold range_order. vm_compute. reflexivity.
  - unfold range_order. vm_compute. apply Permutation_swap.
  - unfold range_order. vm_compute. reflexivity.
  - unfold range_order. vm_compute. apply Permutation_swap.
  - reflexivity.
Defined.

(** ** float64 of an integer below 2^53 *)

Lemma digits2_bounds p :
  2 ^ (Z.pos (digits2_pos p) - 1) ≤ Z.pos p < 2 ^ Z.pos (digits2_pos p).
Proof.
  induction p as [p IH|p IH|]; simpl digits2_pos; [| |simpl; lia];
    rewrite Pos2Z.inj_succ;
    replace (Z.succ (Z.pos (digits2_pos p)) - 1) with (Z.succ (Z.pos (digits2_pos p) - 1)) by lia;
    rewrite !Z.pow_succ_r by lia; lia.
Qed.

Lemma digits2_le_53 p : Z.pos p < 2 ^ 53 → Z.pos (digits2_pos p) ≤ 53.
Proof.
  intros Hp. pose proof (digits2_bounds p) as [Hlo _].
  destruct (Z_le_gt_dec (Z.pos (digits2_pos p)) 53) as [|Hgt]; [done|].
  assert (2 ^ 53 ≤ 2 ^ (Z.pos (digits2_pos p) - 1)) by (apply Z.pow_le_mono_r; lia).
  lia.
Qed.

Lemma iter_xO_pos p k : Z.pos (Pos.iter xO p k) = Z.pos p * 2 ^ Z.pos k.
Proof.
  induction k as [|k IH] using Pos.peano_ind.
  - simpl. lia.
  - rewrite Pos.iter_succ, Pos2Z.inj_succ, Z.pow_succ_r by lia.
    rewrite Pos2Z.inj_xO, IH. lia.
Qed.

Lemma iter_xO_digits p k :
  Z.pos (digits2_pos (Pos.iter xO p k)) = Z.pos (digits2_pos p) + Z.pos k.
Proof.
  induction k as [|k IH] using Pos.peano_ind.
  - simpl. lia.
  - rewrite Pos.iter_succ. simpl digits2_pos. rewrite !Pos2Z.inj_succ, IH. lia.
Qed.

Lemma canon_digits p :
  Z.pos (digits2_pos p) ≤ 53 →
  Z.pos (digits2_pos (canon_m p)) = 53 ∧ canon_e p = Z.pos (digits2_pos p) - 53.
Proof.
  intros Hd. unfold canon_m, canon_e.
  destruct (Z.pos (digits2_pos p) - 53) as [|k|k] eqn:Hk; [lia|lia|].
  rewrite iter_xO_digits. lia.
Qed.

Lemma canon_value p :
  Z.pos (digits2_pos p) ≤ 53 →
  Z.pos (canon_m p) = Z.pos p * 2 ^ (- canon_e p).
Proof.
  intros Hd. unfold canon_m, canon_e.
  destruct (Z.pos (digits2_pos p) - 53) as [|k|k] eqn:Hk; [simpl; lia|lia|].
  by rewrite iter_xO_pos.
Qed.

Lemma binary_round_aux_exact s m e :
  Z.pos (digits2_pos m) = 53 → -1074 ≤ e ≤ 971 →
  binary_round_aux 53 1024 s (Z.pos m) e loc_Exact = S754_finite s m e.
Proof.
  intros Hd He. unfold binary_round_aux, shr_fexp, fexp, SpecFloat.emin.
  assert (Z.max (53 + e - 53) (3 - 1024 - 53) - e = 0) as Hz by lia.
  simpl Zdigits2. rewrite Hd, Hz. simpl. rewrite Hd, Hz. simpl.
  destruct (Z.leb_spec e (1024 - 53)); [done|lia].
Qed.

Lemma binary_round_int s p :
  Z.pos (digits2_pos p) ≤ 53 →
  binary_round 53 1024 s p 0 = S754_finite s (canon_m p) (canon_e p).
Proof.
  intros Hd. unfold binary_round, fexp, SpecFloat.emin, shl_align.
  destruct (canon_digits p Hd) as [Hcd Hce].
  pose proof (digits2_bounds p) as _.
  replace (Z.max (Z.pos (digits2_pos p) + 0 - 53) (3 - 1024 - 53) - 0)
    with (Z.pos (digits2_pos p) - 53) by lia.
  replace (Z.max (Z.pos (digits2_pos p) + 0 - 53) (3 - 1024 - 53))
    with (Z.pos (digits2_pos p) - 53) by lia.
  unfold canon_m, canon_e in *.
  destruct (Z.pos (digits2_pos p) - 53) as [|k|k] eqn:Hk; [|lia|].
  - apply binary_round_aux_exact; lia.
  - apply binary_round_aux_exact; lia.
Qed.

Lemma f64_of_int_pos p :
  Z.pos p < 2 ^ 53 → f64_of_int (Z.pos p) = S754_finite false (canon_m p) (canon_e p).
Proof. intros Hp. apply binary_round_int. by apply digits2_le_53. Qed.

Lemma f64_of_int_neg p :
  Z.pos p < 2 ^ 53 → f64_of_int (Z.neg p) = S754_finite true (canon_m p) (canon_e p).
Proof. intros Hp. apply binary_round_int. by apply digits2_le_53. Qed.

Lemma canon_compare p q :
  Z.pos (digits2_pos p) ≤ 53 → Z.pos (digits2_pos q) ≤ 53 →
  match canon_e p ?= canon_e q with
  | Lt => Lt
  | Gt => Gt
  | Eq => Pos.compare_cont Eq (canon_m p) (canon_m q)
  end = (Z.pos p ?= Z.pos q).
Proof.
  intros Hp Hq.
  destruct (canon_digits p Hp) as [_ Hep], (canon_digits q Hq) as [_ Heq].
  pose proof (canon_value p Hp) as Hvp. pose proof (canon_value q Hq) as Hvq.
  pose proof (digits2_bounds p) as [Hlp Hup].
  pose proof (digits2_bounds q) as [Hlq Huq].
  destruct (Z.compare_spec (canon_e p) (canon_e q)) as [He|He|He].
  - change (Pos.compare_cont Eq (canon_m p) (canon_m q))
      with (Z.pos (canon_m p) ?= Z.pos (canon_m q)).
    rewrite Hvp, Hvq, He.
    assert (0 < 2 ^ (- canon_e q)) by (apply Z.pow_pos_nonneg; lia).
    destruct (Z.compare_spec (Z.pos p) (Z.pos q)) as [Hc|Hc|Hc].
    + rewrite Hc. apply Z.compare_refl.
    + apply Z.compare_lt_iff. nia.
    + apply Z.compare_gt_iff. nia.
  - symmetry. apply Z.compare_lt_iff.
    assert (2 ^ Z.pos (digits2_pos p) ≤ 2 ^ (Z.pos (digits2_pos q) - 1))
      by (apply Z.pow_le_mono_r; lia).
    lia.
  - symmetry. apply Z.compare_gt_iff.
    assert (2 ^ Z.pos (digits2_pos q) ≤ 2 ^ (Z.pos (digits2_pos p) - 1))
      by (apply Z.pow_le_mono_r; lia).
    lia.
Qed.

(** Below 2^53 the conversion to [float64] keeps the order of the
    integers. *)
Lemma SFcompare_of_int a b :
  Z.abs a < 2 ^ 53 → Z.abs b < 2 ^ 53 →
  SFcompare (f64_of_int a) (f64_of_int b) = Some (a ?= b).
Proof.
  intros Ha Hb.
  destruct a as [|p|p], b as [|q|q]; try reflexivity;
    rewrite ?f64_of_int_pos, ?f64_of_int_neg by lia; try reflexivity.
  - simpl. f_equal. apply canon_compare; apply digits2_le_53; lia.
  - simpl. f_equal.
    change (p ?= q)%positive with (Z.pos p ?= Z.pos q).
    rewrite <- (canon_compare p q) by (apply digits2_le_53; lia).
    by destruct (canon_e p ?= canon_e q).
Qed.

Lemma f64_lt_of_int a b :
  Z.abs a < 2 ^ 53 → Z.abs b < 2 ^ 53 →
  f64_lt (f64_of_int a) (f64_of_int b) = (a <? b).
Proof.
  intros Ha Hb. unfold f64_lt, SFltb, Z.ltb. by rewrite SFcompare_of_int.
Qed.

(** ... and is exact: converting back gives the integer. *)
Lemma int_of_f64_of_int z : Z.abs z < 2 ^ 53 → int_of_f64 (f64_of_int z) = Some z.
Proof.
  intros Hz.
  assert (∀ p, Z.pos p < 2 ^ 53 →
    (if 0 <=? canon_e p then Z.pos (canon_m p) * 2 ^ canon_e p
     else Z.pos (canon_m p) / 2 ^ (- canon_e p)) = Z.pos p) as Hv.
  { intros p Hp. pose proof (digits2_le_53 p Hp) as Hd.
    destruct (canon_digits p Hd) as [_ He]. rewrite (canon_value p Hd).
    destruct (Z.leb_spec 0 (canon_e p)).
    - replace (canon_e p) with 0 by lia. simpl. lia.
    - apply Z.div_mul. apply Z.pow_nonzero; lia. }
  destruct z as [|p|p]; [done| |].
  - rewrite f64_of_int_pos by lia. unfold int_of_f64. rewrite Hv by lia.
    destruct (Z.leb_spec (- 2 ^ 63) (Z.pos p)), (Z.ltb_spec (Z.pos p) (2 ^ 63)); try done; lia.
  - rewrite f64_of_int_neg by lia. unfold int_of_f64. rewrite Hv by lia.
    destruct (Z.leb_spec (- 2 ^ 63) (- Z.pos p)), (Z.ltb_spec (- Z.pos p) (2 ^ 63)); try done; lia.
Qed.

(** ** float64 arithmetic on integers below 2^53 *)

Lemma iter_pos_comm {A} (f : A → A) n x :
  SpecFloat.iter_pos f n (f x) = f (SpecFloat.iter_pos f n x).
Proof.
  revert x. induction n as [n IH|n IH|]; intros x; simpl.
  - by rewrite !IH.
  - by rewrite !IH.
  - done.
Qed.

Lemma iter_pos_succ {A} (f : A → A) n x :
  SpecFloat.iter_pos f (Pos.succ n) x = f (SpecFloat.iter_pos f n x).
Proof.
  revert x. induction n as [n IH|n IH|]; intros x; simpl.
  - rewrite !IH. by rewrite !iter_pos_comm.
  - by rewrite !iter_pos_comm.
  - done.
Qed.

(** Shifting out zero bits loses nothing. *)
Lemma shr_exact m t :
  SpecFloat.iter_pos shr_1 t (Build_shr_record (Z.pos m * 2 ^ Z.pos t) false false) =
  Build_shr_record (Z.pos m) false false.
Proof.
  revert m. induction t as [|t IH] using Pos.peano_ind; intros m.
  - rewrite Z.pow_1_r. by replace (Z.pos m * 2) with (Z.pos m~0) by lia.
  - rewrite iter_pos_succ, Pos2Z.inj_succ, Z.pow_succ_r by lia.
    replace (Z.pos m * (2 * 2 ^ Z.pos t)) with (Z.pos m~0 * 2 ^ Z.pos t) by lia.
    by rewrite IH.
Qed.

Lemma digits2_shift p q j :
  0 ≤ j → Z.pos q = Z.pos p * 2 ^ j →
  Z.pos (digits2_pos q) = Z.pos (digits2_pos p) + j.
Proof.
  intros Hj Hq. destruct j as [|k|k]; [| |lia].
  - assert (q = p) as -> by lia. lia.
  - rewrite <- iter_xO_pos in Hq. injection Hq as ->. apply iter_xO_digits.
Qed.

Lemma shr_fexp_canon m e :
  Z.pos (digits2_pos m) = 53 → -1074 ≤ e →
  shr_fexp 53 1024 (Z.pos m) e loc_Exact = (Build_shr_record (Z.pos m) false false, e).
Proof.
  intros Hd He. unfold shr_fexp, fexp, SpecFloat.emin. simpl Zdigits2. rewrite Hd.
  replace (Z.max (53 + e - 53) (3 - 1024 - 53) - e) with 0 by lia. done.
Qed.

(** A mantissa [q] that is [p] followed by [j] zero bits, with the
    exponent [-j], rounds to the number [p] itself. *)
Lemma shr_fexp_shift p q j :
  Z.pos p < 2 ^ 53 → 0 ≤ j → Z.pos q = Z.pos p * 2 ^ j →
  53 ≤ Z.pos (digits2_pos p) + j →
  shr_fexp 53 1024 (Z.pos q) (- j) loc_Exact =
    (Build_shr_record (Z.pos (canon_m p)) false false, canon_e p).
Proof.
  intros Hp Hj Hq Hd. pose proof (digits2_le_53 p Hp) as Hdp.
  destruct (canon_digits p Hdp) as [Hcd Hce]. pose proof (canon_value p Hdp) as Hcv.
  pose proof (digits2_shift p q j Hj Hq) as Hdq.
  unfold shr_fexp, fexp, SpecFloat.emin. simpl Zdigits2. rewrite Hdq.
  replace (Z.max (Z.pos (digits2_pos p) + j + - j - 53) (3 - 1024 - 53) - - j)
    with (Z.pos (digits2_pos p) - 53 + j) by lia.
  destruct (Z.pos (digits2_pos p) - 53 + j) as [|t|t] eqn:Ht; [| |lia].
  - simpl. assert (Z.pos q = Z.pos (canon_m p)) as Hqc.
    { rewrite Hq, Hcv. do 2 f_equal. lia. }
    rewrite Hqc. f_equal. lia.
  - unfold shr. f_equal; [|lia].
    assert (Z.pos q = Z.pos (canon_m p) * 2 ^ Z.pos t) as ->.
    { rewrite Hq, Hcv, <- Z.mul_assoc, <- Z.pow_add_r by lia. do 2 f_equal. lia. }
    apply shr_exact.
Qed.

Lemma binary_round_aux_shift s p q j :
  Z.pos p < 2 ^ 53 → 0 ≤ j → Z.pos q = Z.pos p * 2 ^ j →
  53 ≤ Z.pos (digits2_pos p) + j →
  binary_round_aux 53 1024 s (Z.pos q) (- j) loc_Exact =
    S754_finite s (canon_m p) (canon_e p).
Proof.
  intros Hp Hj Hq Hd. pose proof (digits2_le_53 p Hp) as Hdp.
  destruct (canon_digits p Hdp) as [Hcd Hce].
  unfold binary_round_aux. rewrite (shr_fexp_shift p q j) by done.
  simpl. rewrite shr_fexp_canon by (done || lia). simpl.
  destruct (Z.leb_spec (canon_e p) (1024 - 53)); [done|lia].
Qed.

Lemma binary_round_shift s p q j :
  Z.pos p < 2 ^ 53 → 0 ≤ j → Z.pos q = Z.pos p * 2 ^ j →
  binary_round 53 1024 s q (- j) = S754_finite s (canon_m p) (canon_e p).
Proof.
  intros Hp Hj Hq. pose proof (digits2_le_53 p Hp) as Hdp.
  destruct (canon_digits p Hdp) as [Hcd Hce]. pose proof (canon_value p Hdp) as Hcv.
  pose proof (digits2_shift p q j Hj Hq) as Hdq.
  unfold binary_round, fexp, SpecFloat.emin, shl_align. rewrite Hdq.
  replace (Z.max (Z.pos (digits2_pos p) + j + - j - 53) (3 - 1024 - 53))
    with (Z.pos (digits2_pos p) - 53) by lia.
  destruct (Z.pos (digits2_pos p) - 53 - - j) as [|t|t] eqn:Ht.
  - apply binary_round_aux_shift; (done || lia).
  - apply binary_round_aux_shift; (done || lia).
  - assert (Pos.iter xO q t = canon_m p) as ->.
    { apply Pos2Z.inj. rewrite iter_xO_pos, Hq, Hcv, <- Z.mul_assoc, <- Z.pow_add_r by lia.
      do 2 f_equal. lia. }
    rewrite <- Hce. apply binary_round_aux_exact; lia.
Qed.

(** [binary_normalize] of an integer [z] written with [j] more zero bits
    is [float64(z)]. *)
Lemma binary_normalize_shift z j :
  Z.abs z < 2 ^ 53 → 0 ≤ j →
  binary_normalize 53 1024 (z * 2 ^ j) (- j) false = f64_of_int z.
Proof.
  intros Hz Hj. assert (0 < 2 ^ j) as Hpow by (apply Z.pow_pos_nonneg; lia).
  destruct z as [|p|p].
  - done.
  - rewrite f64_of_int_pos by lia.
    destruct (Z.pos p * 2 ^ j) as [|q|q] eqn:Hq; [lia| |lia].
    simpl. apply binary_round_shift; (done || lia).
  - rewrite f64_of_int_neg by lia.
    destruct (Z.neg p * 2 ^ j) as [|q|q] eqn:Hq; [lia|lia|].
    simpl. apply binary_round_shift; (done || lia).
Qed.

(** The binary64 form of a non-zero integer below 2^53: a 53-bit mantissa
    [m] and an exponent [e] with [± m = z * 2^-e]. *)
Lemma f64_of_int_finite z :
  z ≠ 0 → Z.abs z < 2 ^ 53 →
  ∃ m e,
    f64_of_int z = S754_finite (z <? 0) m e ∧
    cond_Zopp (z <? 0) (Z.pos m) = z * 2 ^ (- e) ∧
    -52 ≤ e ≤ 0 ∧
    Z.pos (digits2_pos m) = 53 ∧
    2 ^ (e + 52) ≤ Z.abs z < 2 ^ (e + 53).
Proof.
  intros Hz Hlt.
  assert (∀ p, Z.pos p < 2 ^ 53 →
    Z.pos (canon_m p) = Z.pos p * 2 ^ (- canon_e p) ∧ -52 ≤ canon_e p ≤ 0 ∧
    Z.pos (digits2_pos (canon_m p)) = 53 ∧
    2 ^ (canon_e p + 52) ≤ Z.pos p < 2 ^ (canon_e p + 53)) as Hcanon.
  { intros p Hp. pose proof (digits2_le_53 p Hp) as Hd.
    destruct (canon_digits p Hd) as [Hcd Hce]. pose proof (canon_value p Hd).
    pose proof (digits2_bounds p) as Hb. rewrite Hce in H |- *.
    replace (Z.pos (digits2_pos p) - 53 + 52) with (Z.pos (digits2_pos p) - 1) by lia.
    replace (Z.pos (digits2_pos p) - 53 + 53) with (Z.pos (digits2_pos p)) by lia.
    repeat split; try done; lia. }
  destruct z as [|p|p]; [done| |].
  - destruct (Hcanon p) as (Hv & He & Hd & Hb); [lia|].
    exists (canon_m p), (canon_e p). rewrite f64_of_int_pos by lia.
    repeat split; try done; simpl; lia.
  - destruct (Hcanon p) as (Hv & He & Hd & Hb); [lia|].
    exists (canon_m p), (canon_e p). rewrite f64_of_int_neg by lia.
    repeat split; try done; simpl; lia.
Qed.

Lemma shl_align_value m e e' :
  e' ≤ e → Z.pos (shl_align m e e').1 = Z.pos m * 2 ^ (e - e').
Proof.
  intros He. unfold shl_align.
  destruct (e' - e) as [|d|d] eqn:Hd; simpl.
  - replace (e - e') with 0 by lia. lia.
  - lia.
  - rewrite iter_xO_pos. do 2 f_equal. lia.
Qed.

Lemma cond_Zopp_mul s a b : cond_Zopp s (a * b) = cond_Zopp s a * b.
Proof. destruct s; simpl; lia. Qed.

(** The aligned mantissas of an addition or a subtraction. *)
Lemma aligned_mantissa s m e z ez :
  cond_Zopp s (Z.pos m) = z * 2 ^ (- e) → ez ≤ e → e ≤ 0 →
  cond_Zopp s (Z.pos (shl_align m e ez).1) = z * 2 ^ (- ez).
Proof.
  intros Hm Hez He. rewrite shl_align_value, cond_Zopp_mul, Hm by done.
  rewrite <- Z.mul_assoc, <- Z.pow_add_r by lia. do 2 f_equal. lia.
Qed.

(** Subtraction and addition of integers are exact while the result stays
    below 2^53. *)
Lemma f64_sub_int x y :
  Z.abs x < 2 ^ 53 → Z.abs y < 2 ^ 53 → Z.abs (x - y) < 2 ^ 53 →
  f64_sub (f64_of_int x) (f64_of_int y) = f64_of_int (x - y).
Proof.
  intros Hx Hy Hxy. unfold f64_sub, f64_prec, f64_emax.
  destruct (decide (x = 0)) as [->|Hx0], (decide (y = 0)) as [->|Hy0].
  - done.
  - change (f64_of_int 0) with (S754_zero false).
    destruct y as [|p|p]; [done| |].
    + change (0 - Z.pos p) with (Z.neg p).
      by rewrite f64_of_int_pos, f64_of_int_neg by lia.
    + change (0 - Z.neg p) with (Z.pos p).
      by rewrite f64_of_int_pos, f64_of_int_neg by lia.
  - rewrite Z.sub_0_r. destruct (f64_of_int_finite x Hx0 Hx) as (mx & ex & Hfx & _).
    rewrite Hfx. done.
  - destruct (f64_of_int_finite x Hx0 Hx) as (mx & ex & Hfx & Hmx & Hex & _).
    destruct (f64_of_int_finite y Hy0 Hy) as (my & ey & Hfy & Hmy & Hey & _).
    rewrite Hfx, Hfy. unfold SFsub.
    rewrite (aligned_mantissa _ mx ex x) by (done || lia).
    rewrite (aligned_mantissa _ my ey y) by (done || lia).
    rewrite <- Z.mul_sub_distr_r.
    rewrite <- (Z.opp_involutive (Z.min ex ey)) at 2.
    apply binary_normalize_shift; lia.
Qed.

Lemma f64_add_int x y :
  Z.abs x < 2 ^ 53 → Z.abs y < 2 ^ 53 → Z.abs (x + y) < 2 ^ 53 →
  f64_add (f64_of_int x) (f64_of_int y) = f64_of_int (x + y).
Proof.
  intros Hx Hy Hxy. unfold f64_add, f64_prec, f64_emax.
  destruct (decide (x = 0)) as [->|Hx0], (decide (y = 0)) as [->|Hy0].
  - done.
  - destruct (f64_of_int_finite y Hy0 Hy) as (my & ey & Hfy & _).
    rewrite Z.add_0_l, Hfy. done.
  - rewrite Z.add_0_r. destruct (f64_of_int_finite x Hx0 Hx) as (mx & ex & Hfx & _).
    rewrite Hfx. done.
  - destruct (f64_of_int_finite x Hx0 Hx) as (mx & ex & Hfx & Hmx & Hex & _).
    destruct (f64_of_int_finite y Hy0 Hy) as (my & ey & Hfy & Hmy & Hey & _).
    rewrite Hfx, Hfy. unfold SFadd.
    rewrite (aligned_mantissa _ mx ex x) by (done || lia).
    rewrite (aligned_mantissa _ my ey y) by (done || lia).
    rewrite <- Z.mul_add_distr_r.
    rewrite <- (Z.opp_involutive (Z.min ex ey)) at 2.
    apply binary_normalize_shift; lia.
Qed.

(** A product of a positive and a non-negative integer is exact while it
    stays below 2^53. *)
Lemma f64_mul_int x y :
  0 < x < 2 ^ 53 → 0 ≤ y → x * y < 2 ^ 53 →
  f64_mul (f64_of_int x) (f64_of_int y) = f64_of_int (x * y).
Proof.
  intros Hx Hy Hxy. unfold f64_mul, f64_prec, f64_emax.
  destruct (f64_of_int_finite x) as (mx & ex & Hfx & Hmx & Hex & Hdx & Hbx); [lia|lia|].
  replace (x <? 0) with false in * by (symmetry; apply Z.ltb_ge; lia).
  rewrite Hfx. destruct (decide (y = 0)) as [->|Hy0].
  { by rewrite Z.mul_0_r. }
  destruct (f64_of_int_finite y) as (my & ey & Hfy & Hmy & Hey & Hdy & Hby); [lia|nia|].
  replace (y <? 0) with false in * by (symmetry; apply Z.ltb_ge; lia).
  rewrite Hfy. simpl in Hmx, Hmy. simpl.
  destruct (x * y) as [|pz|pz] eqn:Hz; [nia| |nia].
  rewrite f64_of_int_pos by lia.
  replace (ex + ey) with (- (- ex - ey)) by lia.
  assert (2 ^ (ex + 52) * 2 ^ (ey + 52) ≤ Z.pos pz) as Hlow.
  { rewrite <- Hz. rewrite !Z.abs_eq in Hbx, Hby by lia.
    apply Z.mul_le_mono_nonneg; try lia; apply Z.pow_nonneg; lia. }
  rewrite <- Z.pow_add_r in Hlow by lia.
  pose proof (digits2_bounds pz) as [_ Hup].
  assert (ex + 52 + (ey + 52) < Z.pos (digits2_pos pz)).
  { apply (Z.pow_lt_mono_r_iff 2); lia. }
  apply binary_round_aux_shift; try lia.
  rewrite Pos2Z.inj_mul, Hmx, Hmy, <- Hz.
  replace (- ex - ey) with (- ex + - ey) by lia. rewrite Z.pow_add_r by lia. lia.
Qed.

(** The quotient of [k * w] by [w] is exactly [k]. *)
Lemma f64_div_int k w :
  0 < w < 2 ^ 53 → 0 ≤ k → k * w < 2 ^ 53 →
  f64_div (f64_of_int (k * w)) (f64_of_int w) = f64_of_int k.
Proof.
  intros Hw Hk Hkw. unfold f64_div, f64_prec, f64_emax.
  destruct (f64_of_int_finite w) as (my & ey & Hfy & Hmy & Hey & Hdy & Hby); [lia|lia|].
  replace (w <? 0) with false in * by (symmetry; apply Z.ltb_ge; lia).
  rewrite Hfy. destruct (decide (k = 0)) as [->|Hk0]; [done|].
  destruct (f64_of_int_finite (k * w)) as (mx & ex & Hfx & Hmx & Hex & Hdx & Hbx); [nia|nia|].
  replace (k * w <? 0) with false in * by (symmetry; apply Z.ltb_ge; nia).
  rewrite Hfx. simpl in Hmx, Hmy. unfold SFdiv, SFdiv_core_binary.
  simpl Zdigits2. rewrite Hdx, Hdy.
  replace (Z.min (fexp 53 1024 (53 + ex - (53 + ey))) (ex - ey)) with (ex - ey - 53)
    by (unfold fexp, SpecFloat.emin; lia).
  replace (ex - ey - (ex - ey - 53)) with 53 by lia.
  rewrite Z.shiftl_mul_pow2 by lia.
  destruct k as [|pk|pk]; [done| |lia].
  assert (Z.pos mx * 2 ^ 53 = Z.pos pk * 2 ^ (53 - ex + ey) * Z.pos my) as Hq.
  { rewrite Hmx, Hmy.
    replace (53 - ex + ey) with (- ex + (53 + ey)) by lia.
    rewrite Z.pow_add_r by lia.
    assert (2 ^ 53 = 2 ^ (53 + ey) * 2 ^ (- ey)) as ->
      by (rewrite <- Z.pow_add_r by lia; f_equal; lia).
    lia. }
  destruct (Z.div_eucl (Z.pos mx * 2 ^ 53) (Z.pos my)) as [q r] eqn:Hdiv.
  assert (q = Z.pos pk * 2 ^ (53 - ex + ey)) as ->.
  { transitivity (Z.pos mx * 2 ^ 53 / Z.pos my).
    - unfold Z.div. by rewrite Hdiv.
    - rewrite Hq. by apply Z.div_mul. }
  assert (r = 0) as ->.
  { transitivity ((Z.pos mx * 2 ^ 53) mod Z.pos my).
    - unfold Z.modulo. by rewrite Hdiv.
    - rewrite Hq. by apply Z.mod_mul. }
  replace (new_location (Z.pos my) 0) with loc_Exact
    by (unfold new_location; by destruct (Z.even (Z.pos my))).
  rewrite f64_of_int_pos by nia.
  assert (0 < 2 ^ (53 - ex + ey)) as Hpow by (apply Z.pow_pos_nonneg; lia).
  destruct (Z.pos pk * 2 ^ (53 - ex + ey)) as [|pq|pq] eqn:Hpq; [lia| |lia].
  replace (ex - ey - 53) with (- (53 - ex + ey)) by lia.
  simpl xorb.
  pose proof (digits2_bounds pk) as [Hlo Hup].
  rewrite !Z.abs_eq in Hbx, Hby by nia.
  assert (2 ^ (ex + 52) < 2 ^ (Z.pos (digits2_pos pk) + (ey + 53))) as Hlt.
  { rewrite (Z.pow_add_r 2 (Z.pos (digits2_pos pk)) (ey + 53)) by lia.
    apply Z.le_lt_trans with (Z.pos pk * w); [lia|].
    apply Z.mul_lt_mono_nonneg; lia. }
  apply Z.pow_lt_mono_r_iff in Hlt; [|lia|lia].
  apply binary_round_aux_shift; lia.
Qed.

(** The quotient of [- (k * w)] by [w] is exactly [- k]. *)
Lemma f64_div_int_neg k w :
  0 < w < 2 ^ 53 → 0 < k → k * w < 2 ^ 53 →
  f64_div (f64_of_int (- (k * w))) (f64_of_int w) = f64_of_int (- k).
Proof.
  intros Hw Hk Hkw. unfold f64_div, f64_prec, f64_emax.
  destruct (f64_of_int_finite w) as (my & ey & Hfy & Hmy & Hey & Hdy & Hby); [lia|lia|].
  replace (w <? 0) with false in * by (symmetry; apply Z.ltb_ge; lia).
  rewrite Hfy.
  destruct (f64_of_int_finite (- (k * w))) as (mx & ex & Hfx & Hmx & Hex & Hdx & Hbx);
    [nia|nia|].
  replace (- (k * w) <? 0) with true in * by (symmetry; apply Z.ltb_lt; nia).
  rewrite Hfx. simpl in Hmx, Hmy. unfold SFdiv, SFdiv_core_binary.
  simpl Zdigits2. rewrite Hdx, Hdy.
  replace (Z.min (fexp 53 1024 (53 + ex - (53 + ey))) (ex - ey)) with (ex - ey - 53)
    by (unfold fexp, SpecFloat.emin; lia).
  replace (ex - ey - (ex - ey - 53)) with 53 by lia.
  rewrite Z.shiftl_mul_pow2 by lia.
  destruct k as [|pk|pk]; [lia| |lia].
  assert (Z.pos mx * 2 ^ 53 = Z.pos pk * 2 ^ (53 - ex + ey) * Z.pos my) as Hq.
  { assert (Z.pos mx = Z.pos pk * w * 2 ^ (- ex)) as -> by lia. rewrite Hmy.
    replace (53 - ex + ey) with (- ex + (53 + ey)) by lia.
    rewrite Z.pow_add_r by lia.
    assert (2 ^ 53 = 2 ^ (53 + ey) * 2 ^ (- ey)) as ->
      by (rewrite <- Z.pow_add_r by lia; f_equal; lia).
    lia. }
  destruct (Z.div_eucl (Z.pos mx * 2 ^ 53) (Z.pos my)) as [q r] eqn:Hdiv.
  assert (q = Z.pos pk * 2 ^ (53 - ex + ey)) as ->.
  { transitivity (Z.pos mx * 2 ^ 53 / Z.pos my).
    - unfold Z.div. by rewrite Hdiv.
    - rewrite Hq. by apply Z.div_mul. }
  assert (r = 0) as ->.
  { transitivity ((Z.pos mx * 2 ^ 53) mod Z.pos my).
    - unfold Z.modulo. by rewrite Hdiv.
    - rewrite Hq. by apply Z.mod_mul. }
  replace (new_location (Z.pos my) 0) with loc_Exact
    by (unfold new_location; by destruct (Z.even (Z.pos my))).
  change (- Z.pos pk) with (Z.neg pk). rewrite f64_of_int_neg by nia.
  assert (0 < 2 ^ (53 - ex + ey)) as Hpow by (apply Z.pow_pos_nonneg; lia).
  destruct (Z.pos pk * 2 ^ (53 - ex + ey)) as [|pq|pq] eqn:Hpq; [lia| |lia].
  replace (ex - ey - 53) with (- (53 - ex + ey)) by lia.
  simpl xorb.
  pose proof (digits2_bounds pk) as [Hlo Hup].
  rewrite Z.abs_neq in Hbx by nia. rewrite Z.abs_eq in Hby by nia.
  assert (2 ^ (ex + 52) < 2 ^ (Z.pos (digits2_pos pk) + (ey + 53))) as Hlt.
  { rewrite (Z.pow_add_r 2 (Z.pos (digits2_pos pk)) (ey + 53)) by lia.
    apply Z.le_lt_trans with (Z.pos pk * w); [lia|].
    apply Z.mul_lt_mono_nonneg; lia. }
  apply Z.pow_lt_mono_r_iff in Hlt; [|lia|lia].
  apply binary_round_aux_shift; lia.
Qed.

(** ** Weekly buckets *)

Lemma int64_wrap_id z : - 2 ^ 63 ≤ z < 2 ^ 63 → int64_wrap z = z.
Proof. intros Hz. unfold int64_wrap. rewrite Z.mod_small; lia. Qed.

Lemma int64_wrap_range z : - 2 ^ 63 ≤ int64_wrap z < 2 ^ 63.
Proof.
  unfold int64_wrap. pose proof (Z.mod_pos_bound (z + 2 ^ 63) (2 ^ 64)). lia.
Qed.

(** The product of line 162 never wraps: it lies between 0 and
    [dt.Unix()]. *)
Lemma quot_week_bounds u :
  (0 ≤ u → 0 ≤ Z.quot u GroupSize * GroupSize ≤ u) ∧
  (u ≤ 0 → u ≤ Z.quot u GroupSize * GroupSize ≤ 0).
Proof.
  pose proof (Z.quot_rem' u GroupSize) as Hq.
  week_size HW.
  split; intros Hu.
  - pose proof (Z.rem_bound_pos u GroupSize). 
    assert (0 ≤ Z.quot u GroupSize) by (apply Z.quot_pos; lia). lia.
  - pose proof (Z.rem_nonpos u GroupSize).
    assert (Z.quot u GroupSize ≤ 0).
    { rewrite <- (Z.opp_involutive u), Z.quot_opp_l by lia.
      assert (0 ≤ Z.quot (- u) GroupSize) by (apply Z.quot_pos; lia). lia. }
    lia.
Qed.

Lemma bucket_quot dt : bucket dt = Z.quot (Unix dt) GroupSize * GroupSize.
Proof.
  unfold bucket. apply int64_wrap_id.
  pose proof (int64_wrap_range (sec dt - unixToInternal)) as Hr. fold (Unix dt) in Hr.
  destruct (quot_week_bounds (Unix dt)) as [Hpos Hneg].
  destruct (Z_le_gt_dec 0 (Unix dt)); [specialize (Hpos ltac:(lia))|specialize (Hneg ltac:(lia))]; lia.
Qed.

Lemma bucket_abs dt : Z.abs (bucket dt) ≤ Z.abs (Unix dt).
Proof.
  rewrite bucket_quot. destruct (quot_week_bounds (Unix dt)) as [Hpos Hneg].
  destruct (Z_le_gt_dec 0 (Unix dt)); [specialize (Hpos ltac:(lia))|specialize (Hneg ltac:(lia))]; lia.
Qed.

(** C3.  Bucket keys before the epoch.  One second before the epoch
    [display] computes the bucket 0, the week that starts at the epoch,
    where the floor of the specification gives the week before,
    -604800; the times -604800 and -1, of equal floor, get different
    buckets; and a commit one second before the epoch is counted together
    with one at the epoch. *)
Theorem bucket_before_epoch :
  Unix (unixTime (-1)) = -1 ∧
  bucket (unixTime (-1)) = 0 ∧
  spec_bucket (unixTime (-1)) = -604800 ∧
  Unix (unixTime (-604800)) / GroupSize = Unix (unixTime (-1)) / GroupSize ∧
  bucket (unixTime (-604800)) = -604800 ∧
  aggregate scenario_now [unixTime (-1); unixTime 0] = {[ 0 := 2 ]}.
Proof. repeat split. Qed.

(** The bucket start is always a whole number of weeks from the epoch,
    never further from it than the commit. *)
Theorem bucket_multiple_of_week (dt : Time) :
  bucket dt = Z.quot (Unix dt) GroupSize * GroupSize ∧
  bucket dt mod GroupSize = 0 ∧
  Z.abs (bucket dt) ≤ Z.abs (Unix dt).
Proof.
  split; [apply bucket_quot|]. split; [|apply bucket_abs].
  rewrite bucket_quot. by apply Z.mod_mul.
Qed.

(** From the epoch on the bucket start is the floor of the specification,
    the start of the week the commit falls in. *)
Theorem bucket_floor_from_epoch (dt : Time) :
  0 ≤ Unix dt →
  bucket dt = spec_bucket dt ∧
  bucket dt ≤ Unix dt < bucket dt + GroupSize.
Proof.
  intros Hu. unfold spec_bucket. rewrite bucket_quot, Z.quot_div_nonneg by done.
  week_size HW.
  pose proof (Z.div_mod (Unix dt) GroupSize ltac:(lia)).
  pose proof (Z.mod_pos_bound (Unix dt) GroupSize ltac:(lia)). lia.
Qed.

Lemma bucket_floor_from_epoch_witness :
  bucket (unixTime 1577836800) = spec_bucket (unixTime 1577836800) ∧
  bucket (unixTime 1577836800) ≤ Unix (unixTime 1577836800)
    < bucket (unixTime 1577836800) + GroupSize.
Proof. apply (bucket_floor_from_epoch (unixTime 1577836800)). by vm_compute. Defined.

(** Before the epoch the division rounds towards the epoch: the bucket
    start is the end of the commit's week, unless the commit is on a week
    boundary. *)
Theorem bucket_before_epoch_rounds_up (dt : Time) :
  Unix dt < 0 →
  bucket dt = - (- Unix dt / GroupSize * GroupSize) ∧
  bucket dt - GroupSize < Unix dt ≤ bucket dt.
Proof.
  intros Hu. rewrite bucket_quot.
  week_size HW.
  assert (Z.quot (Unix dt) GroupSize = - (- Unix dt / GroupSize)) as ->.
  { rewrite <- (Z.opp_involutive (Unix dt)) at 1.
    by rewrite Z.quot_opp_l, Z.quot_div_nonneg by lia. }
  pose proof (Z.div_mod (- Unix dt) GroupSize ltac:(lia)).
  pose proof (Z.mod_pos_bound (- Unix dt) GroupSize ltac:(lia)). lia.
Qed.

Lemma bucket_before_epoch_rounds_up_witness :
  bucket (unixTime (-1)) = - (- Unix (unixTime (-1)) / GroupSize * GroupSize) ∧
  bucket (unixTime (-1)) - GroupSize < Unix (unixTime (-1)) ≤ bucket (unixTime (-1)).
Proof. apply (bucket_before_epoch_rounds_up (unixTime (-1))). by vm_compute. Defined.

(** ** Weekly aggregation *)

Lemma count_in_bounds now commits b :
  0 ≤ count_in now commits b ≤ Z.of_nat (length commits).
Proof.
  unfold count_in.
  pose proof (length_filter (λ dt, counted now b dt = true) commits). lia.
Qed.

Lemma count_in_snoc now commits dt b :
  count_in now (commits ++ [dt]) b =
  count_in now commits b + (if counted now b dt then 1 else 0).
Proof.
  unfold count_in. rewrite filter_app, length_app, Nat2Z.inj_add. f_equal.
  rewrite filter_cons, filter_nil. by destruct (counted now b dt).
Qed.

(** The map the loop of lines 157-164 builds: every bucket with a commit
    that is not after [now], under the number of those commits. *)
Lemma aggregate_lookup now commits b :
  Z.of_nat (length commits) < 2 ^ 63 →
  aggregate now commits !! b =
    if decide (0 < count_in now commits b) then Some (count_in now commits b) else None.
Proof.
  revert b. induction commits as [|dt commits IH] using rev_ind; intros b Hlen.
  - done.
  - rewrite length_app, Nat2Z.inj_add in Hlen. simpl in Hlen.
    unfold aggregate. rewrite foldl_snoc. fold (aggregate now commits).
    rewrite count_in_snoc. unfold agg_step, counted.
    pose proof (count_in_bounds now commits b) as Hb.
    destruct (Before now dt); simpl.
    { rewrite Z.add_0_r. apply IH. lia. }
    destruct (Z.eqb_spec (bucket dt) b) as [->|Hne].
    + rewrite lookup_insert_eq, IH by lia.
      rewrite (decide_True (P := 0 < count_in now commits b + 1)) by lia. f_equal.
      destruct (decide (0 < count_in now commits b)); simpl.
      * apply int64_wrap_id. lia.
      * rewrite int64_wrap_id; lia.
    + rewrite lookup_insert_ne by done. rewrite Z.add_0_r. apply IH. lia.
Qed.

(** Commits after [now] leave the map as it is. *)
Lemma aggregate_filter now commits :
  aggregate now commits =
  aggregate now (filter (λ dt, Before now dt = false) commits).
Proof.
  induction commits as [|dt commits IH] using rev_ind; [done|].
  rewrite filter_app, filter_cons, filter_nil. unfold aggregate in *.
  destruct (Before now dt) eqn:Hb.
  - rewrite decide_False by done. rewrite app_nil_r, foldl_snoc.
    unfold agg_step at 1. by rewrite Hb.
  - rewrite decide_True by done. rewrite !foldl_snoc. by rewrite IH.
Qed.

Lemma count_in_pos_elem now commits b :
  0 < count_in now commits b →
  ∃ dt, dt ∈ commits ∧ Before now dt = false ∧ bucket dt = b.
Proof.
  unfold count_in. intros Hc.
  destruct (filter (λ dt, counted now b dt = true) commits) as [|dt l] eqn:Hf;
    [simpl in Hc; lia|].
  assert (dt ∈ filter (λ dt, counted now b dt = true) commits) as Hin
    by (rewrite Hf; left).
  apply list_elem_of_filter in Hin as [Hcnt Hin]. exists dt. split; [done|].
  unfold counted in Hcnt. apply andb_true_iff in Hcnt as [Hb Hk].
  split; [by apply negb_true_iff|by apply Z.eqb_eq].
Qed.




(** ** The plotted series *)

Lemma range_entries_keys {K} `{Countable K} {V} (m : gmap K V) order :
  (∀ k, k ∈ order → is_Some (m !! k)) → (range_entries m order).*1 = order.
Proof.
  induction order as [|k order IH]; intros Hall; [done|].
  unfold range_entries in *. simpl.
  destruct (Hall k) as [v Hv]; [left|]. rewrite Hv. simpl. f_equal.
  apply IH. intros k' Hk'. apply Hall. by right.
Qed.

Lemma range_entries_elem {K} `{Countable K} {V} (m : gmap K V) order k v :
  (k, v) ∈ range_entries m order ↔ k ∈ order ∧ m !! k = Some v.
Proof.
  unfold range_entries. rewrite list_elem_of_omap. split.
  - intros (k' & Hin & Hk). destruct (m !! k') as [v'|] eqn:Hv; [|done].
    simpl in Hk. injection Hk as <- <-. done.
  - intros [Hin Hv]. exists k. by rewrite Hv.
Qed.

Lemma foldl_max_spec l m :
  m ≤ foldl Z.max m l ∧ (∀ c, c ∈ l → c ≤ foldl Z.max m l) ∧
  (foldl Z.max m l = m ∨ foldl Z.max m l ∈ l).
Proof.
  revert m. induction l as [|c l IH]; intros m; simpl.
  - split; [lia|]. split; [|by left]. intros c Hc. by apply not_elem_of_nil in Hc.
  - destruct (IH (Z.max m c)) as (Hge & Hall & Hin). split; [lia|]. split.
    + intros c' Hc'. apply elem_of_cons in Hc' as [->|Hc']; [lia|auto].
    + destruct Hin as [Heq|Hin]; [|right; by right].
      destruct (Z.max_spec m c) as [[_ Hm]|[_ Hm]]; rewrite Hm in *.
      * right. rewrite Heq. left.
      * by left.
Qed.

Lemma plot_loop_from entries data m :
  0 ≤ m < 2 ^ 53 →
  Forall (λ kv : Z * Z, 0 ≤ kv.2 < 2 ^ 53) entries →
  foldl plot_step (data, f64_of_int m) entries =
    (data ++ (point <$> entries), f64_of_int (foldl Z.max m entries.*2)).
Proof.
  revert data m. induction entries as [|kv entries IH]; intros data m Hm Hall.
  - simpl. by rewrite app_nil_r.
  - apply Forall_cons in Hall as [Hkv Hall]. simpl.
    rewrite f64_lt_of_int by lia.
    replace (if m <? kv.2 then f64_of_int kv.2 else f64_of_int m)
      with (f64_of_int (Z.max m kv.2))
      by (destruct (Z.ltb_spec m kv.2); f_equal; lia).
    rewrite IH by (done || lia). by rewrite <- app_assoc.
Qed.

Lemma plot_loop_spec entries :
  Forall (λ kv : Z * Z, 0 ≤ kv.2 < 2 ^ 53) entries →
  plot_loop entries = (point <$> entries, f64_of_int (max_count entries.*2)).
Proof.
  intros Hall. unfold plot_loop.
  change (S754_zero false) with (f64_of_int 0).
  by rewrite plot_loop_from by (done || lia).
Qed.

Lemma sort_insert_perm {A} (less : A → A → bool) a l :
  sort_insert less a l ≡ₚ a :: l.
Proof.
  induction l as [|b l IH]; simpl; [done|].
  destruct (less b a); [|done]. rewrite IH. apply Permutation_swap.
Qed.

Lemma sort_slice_perm {A} (less : A → A → bool) l : sort_slice less l ≡ₚ l.
Proof.
  induction l as [|a l IH]; simpl; [done|].
  rewrite sort_insert_perm. by rewrite IH.
Qed.

Lemma sort_insert_fmap {A B} (g : A → B) less less' a l :
  (∀ b, b ∈ l → less' (g b) (g a) = less b a) →
  sort_insert less' (g a) (g <$> l) = g <$> sort_insert less a l.
Proof.
  induction l as [|b l IH]; intros Hl; simpl; [done|].
  rewrite Hl by left. destruct (less b a); simpl; [|done].
  f_equal. apply IH. intros b' Hb'. apply Hl. by right.
Qed.

Lemma sort_slice_fmap {A B} (g : A → B) less less' l :
  (∀ a b, a ∈ l → b ∈ l → less' (g a) (g b) = less a b) →
  sort_slice less' (g <$> l) = g <$> sort_slice less l.
Proof.
  induction l as [|a l IH]; intros Hl; [done|].
  rewrite fmap_cons. unfold sort_slice in *. simpl.
  rewrite IH by (intros; apply Hl; by right).
  apply sort_insert_fmap. intros b Hb. apply Hl; [right|left].
  fold (sort_slice less l) in Hb. by rewrite <- (sort_slice_perm less l).
Qed.

Lemma sort_insert_sorted a l :
  StronglySorted Z.lt l.*1 → a.1 ∉ l.*1 →
  StronglySorted Z.lt (sort_insert less_key a l).*1.
Proof.
  induction l as [|b l IH]; intros Hs Hnin; simpl.
  - repeat constructor.
  - simpl in Hs. apply StronglySorted_inv in Hs as [Hs Hb].
    apply not_elem_of_cons in Hnin as [Hne Hnin].
    unfold less_key at 1. destruct (Z.ltb_spec b.1 a.1) as [Hlt|Hge]; simpl.
    + constructor; [by apply IH|].
      apply Forall_forall. intros k Hk.
      rewrite (sort_insert_perm less_key a l), fmap_cons in Hk.
      apply elem_of_cons in Hk as [->|Hk]; [done|].
      rewrite Forall_forall in Hb. by apply Hb.
    + constructor; [by constructor|].
      constructor; [lia|]. eapply Forall_impl; [exact Hb|]. simpl. lia.
Qed.

Lemma sort_slice_sorted l :
  NoDup l.*1 → StronglySorted Z.lt (sort_slice less_key l).*1.
Proof.
  induction l as [|a l IH]; intros Hnd; simpl; [constructor|].
  simpl in Hnd. apply NoDup_cons in Hnd as [Hnin Hnd].
  apply sort_insert_sorted; [by apply IH|].
  by rewrite (sort_slice_perm less_key l).
Qed.


(** The entries of the aggregation map, for commits whose times and number
    stay below 2^53. *)
Lemma aggregate_entry now commits b c :
  Z.of_nat (length commits) < 2 ^ 53 →
  Forall (λ dt, Z.abs (Unix dt) < 2 ^ 53) commits →
  (aggregate now commits !! b = Some c ↔ 0 < c ∧ c = count_in now commits b) ∧
  (aggregate now commits !! b = Some c → 0 ≤ c < 2 ^ 53 ∧ Z.abs b < 2 ^ 53).
Proof.
  intros Hlen Hall. rewrite aggregate_lookup by lia.
  pose proof (count_in_bounds now commits b) as Hb.
  destruct (decide (0 < count_in now commits b)) as [Hpos|Hz].
  - split.
    + split; [intros [= <-]; done|intros [_ ->]; done].
    + intros [= <-]. split; [lia|].
      destruct (count_in_pos_elem _ _ _ Hpos) as (dt & Hin & _ & <-).
      rewrite Forall_forall in Hall. pose proof (Hall dt Hin).
      pose proof (bucket_abs dt). lia.
  - split; [|done]. split; [done|]. intros [Hc ->]. lia.
Qed.

Lemma display_data_spec now commits order :
  range_order (aggregate now commits) order →
  Z.of_nat (length commits) < 2 ^ 53 →
  Forall (λ dt, Z.abs (Unix dt) < 2 ^ 53) commits →
  ∃ pairs,
    display_data now commits order =
      (point <$> pairs, f64_of_int (max_count (range_entries (aggregate now commits) order).*2)) ∧
    pairs ≡ₚ range_entries (aggregate now commits) order ∧
    StronglySorted Z.lt pairs.*1 ∧
    (∀ b c, (b, c) ∈ pairs ↔ aggregate now commits !! b = Some c).
Proof.
  intros Hord Hlen Hall.
  set (agg := aggregate now commits). set (entries := range_entries agg order).
  assert (∀ b c, (b, c) ∈ entries ↔ agg !! b = Some c) as Hent.
  { intros b c. unfold entries. rewrite range_entries_elem.
    rewrite (range_order_elem agg order b Hord). split; [by intros [_ ?]|].
    intros Hbc. split; [by eexists|done]. }
  assert (Forall (λ kv : Z * Z, 0 ≤ kv.2 < 2 ^ 53 ∧ Z.abs kv.1 < 2 ^ 53) entries) as Hrange.
  { apply Forall_forall. intros [b c] Hin. apply Hent in Hin.
    by apply (aggregate_entry now commits b c Hlen Hall). }
  assert (entries.*1 = order) as Hkeys.
  { apply range_entries_keys. intros k Hk. by apply (range_order_elem agg order k Hord). }
  exists (sort_slice less_key entries).
  pose proof (sort_slice_perm less_key entries) as Hperm.
  split; [|split; [done|split]].
  - unfold display_data. fold agg. fold entries.
    rewrite plot_loop_spec by (eapply Forall_impl; [exact Hrange|]; simpl; tauto).
    f_equal. apply sort_slice_fmap. intros p q Hp Hq.
    rewrite Forall_forall in Hrange. unfold less_X, less_key. simpl.
    apply f64_lt_of_int; [by apply (Hrange p)|by apply (Hrange q)].
  - apply sort_slice_sorted. rewrite Hkeys. unfold range_order in Hord.
    rewrite Hord. apply NoDup_elements.
  - intros b c. by rewrite Hperm.
Qed.



Lemma max_count_perm l1 l2 : l1 ≡ₚ l2 → max_count l1 = max_count l2.
Proof.
  intros Hp. unfold max_count.
  destruct (foldl_max_spec l1 0) as (Hge1 & Hle1 & Hin1).
  destruct (foldl_max_spec l2 0) as (Hge2 & Hle2 & Hin2).
  assert (foldl Z.max 0 l1 ≤ foldl Z.max 0 l2).
  { destruct Hin1 as [->|Hin1]; [done|]. apply Hle2. by rewrite <- Hp. }
  assert (foldl Z.max 0 l2 ≤ foldl Z.max 0 l1).
  { destruct Hin2 as [->|Hin2]; [done|]. apply Hle1. by rewrite Hp. }
  lia.
Qed.

Lemma sorted_keys_unique (l1 l2 : list (Z * Z)) :
  StronglySorted Z.lt l1.*1 → StronglySorted Z.lt l2.*1 → l1 ≡ₚ l2 → l1 = l2.
Proof.
  assert (∀ l : list (Z * Z), StronglySorted Z.lt l.*1 →
            StronglySorted (λ p q : Z * Z, p.1 < q.1) l) as Hkeys.
  { induction l as [|p l IH]; intros Hs; [constructor|].
    rewrite fmap_cons in Hs. apply StronglySorted_inv in Hs as [Hs Hp].
    constructor; [by apply IH|]. rewrite Forall_fmap in Hp.
    eapply Forall_impl; [exact Hp|]. by intros q. }
  intros H1 H2 Hp.
  apply (StronglySorted_unique_strong (λ p q : Z * Z, p.1 < q.1)); auto.
  intros x1 x2 _ _. lia.
Qed.

(** The points and the maximum do not depend on the order in which Go
    ranges over the aggregation map. *)
Theorem display_data_order_independent (now : Time) (commits : list Time)
    (order1 order2 : list Z) :
  range_order (aggregate now commits) order1 →
  range_order (aggregate now commits) order2 →
  Z.of_nat (length commits) < 2 ^ 53 →
  Forall (λ dt, Z.abs (Unix dt) < 2 ^ 53) commits →
  display_data now commits order1 = display_data now commits order2.
Proof.
  intros Ho1 Ho2 Hlen Hall.
  destruct (display_data_spec now commits order1 Ho1 Hlen Hall) as (p1 & -> & Hp1 & Hs1 & _).
  destruct (display_data_spec now commits order2 Ho2 Hlen Hall) as (p2 & -> & Hp2 & Hs2 & _).
  assert (range_entries (aggregate now commits) order1
            ≡ₚ range_entries (aggregate now commits) order2) as Hperm.
  { unfold range_entries. apply omap_Permutation.
    unfold range_order in Ho1, Ho2. by rewrite Ho1, Ho2. }
  f_equal.
  - f_equal. apply sorted_keys_unique; [done|done|]. by rewrite Hp1, Hp2.
  - f_equal. apply max_count_perm. by rewrite Hperm.
Qed.

Lemma display_data_order_independent_witness :
  display_data scenario_now scenario_commits [0; 604800] =
  display_data scenario_now scenario_commits [604800; 0].
Proof.
  apply (display_data_order_independent scenario_now scenario_commits).
  - unfold range_order. vm_compute elements. apply Permutation_swap.
  - unfold range_order. vm_compute elements. reflexivity.
  - by vm_compute.
  - repeat constructor; by vm_compute.
Defined.

(** ** The aggregation map, in full *)

Lemma total_insert agg b c :
  total (<[b := c]> agg) = c + total agg - default 0 (agg !! b).
Proof.
  unfold total. destruct (agg !! b) as [c0|] eqn:Hb; simpl.
  - rewrite <- (insert_delete_eq agg b c).
    rewrite <- (insert_delete_id agg b c0 Hb) at 2.
    rewrite !map_fold_insert_L; [lia| |apply lookup_delete_eq| |apply lookup_delete_eq];
      intros; lia.
  - rewrite map_fold_insert_L; [lia| |done]. intros; lia.
Qed.

Lemma agg_step_swap now agg d1 d2 :
  agg_step now (agg_step now agg d1) d2 = agg_step now (agg_step now agg d2) d1.
Proof.
  unfold agg_step. destruct (Before now d1), (Before now d2); try done.
  destruct (decide (bucket d1 = bucket d2)) as [Heq|Hne].
  - rewrite Heq. done.
  - rewrite !lookup_insert_ne by done. by apply insert_insert_ne.
Qed.

Lemma foldl_agg_step_perm now l1 l2 agg :
  l1 ≡ₚ l2 → foldl (agg_step now) agg l1 = foldl (agg_step now) agg l2.
Proof.
  intros Hp. revert agg. induction Hp as [|x l1 l2 _ IH|x y l|l1 l2 l3 _ IH1 _ IH2];
    intros agg; simpl.
  - done.
  - apply IH.
  - by rewrite agg_step_swap.
  - by rewrite IH1.
Qed.

Lemma agg_step_dom now agg dt b :
  is_Some (agg !! b) → is_Some (agg_step now agg dt !! b).
Proof.
  unfold agg_step. destruct (Before now dt); [done|]. intros Hb.
  destruct (decide (b = bucket dt)) as [->|Hne].
  - rewrite lookup_insert_eq. by eexists.
  - by rewrite lookup_insert_ne.
Qed.

Lemma foldl_agg_step_dom now l agg b :
  is_Some (agg !! b) → is_Some (foldl (agg_step now) agg l !! b).
Proof.
  revert agg. induction l as [|dt l IH]; intros agg Hb; [done|]. simpl.
  by apply IH, agg_step_dom.
Qed.

(** No commit is lost and none is counted twice: the counts of the
    buckets add up to the number of commits that are not after [now]. *)
Theorem aggregate_counts_every_commit (now : Time) (commits : list Time) :
  Z.of_nat (length commits) < 2 ^ 63 →
  total (aggregate now commits) =
    Z.of_nat (length (filter (λ dt, Before now dt = false) commits)).
Proof.
  induction commits as [|dt commits IH] using rev_ind; intros Hlen; [done|].
  rewrite length_app, Nat2Z.inj_add in Hlen. simpl in Hlen.
  rewrite filter_app, length_app, Nat2Z.inj_add, <- IH by lia.
  unfold aggregate. rewrite foldl_snoc. fold (aggregate now commits).
  rewrite filter_cons, filter_nil. unfold agg_step.
  destruct (Before now dt) eqn:Hb.
  - rewrite decide_False by done. simpl. lia.
  - rewrite decide_True by done. simpl. rewrite total_insert.
    rewrite aggregate_lookup by lia.
    pose proof (count_in_bounds now commits (bucket dt)).
    destruct (decide (0 < count_in now commits (bucket dt))); simpl;
      rewrite int64_wrap_id; lia.
Qed.

Lemma aggregate_counts_every_commit_witness :
  total (aggregate scenario_now scenario_commits) =
    Z.of_nat (length (filter (λ dt, Before scenario_now dt = false) scenario_commits)).
Proof.
  apply (aggregate_counts_every_commit scenario_now scenario_commits).
  vm_compute. reflexivity.
Defined.

(** [display] does not depend on the order in which the history lists the
    commits: commits in another order give the same aggregation map, the
    same points and maximum, and the same call of the plotter. *)
Theorem display_commit_order_irrelevant (w : World) (s : Schedule) (u : string)
    (name : string) (commits1 commits2 : list Time) :
  commits1 ≡ₚ commits2 →
  (∀ now, aggregate now commits1 = aggregate now commits2) ∧
  (∀ now order, display_data now commits1 order = display_data now commits2 order) ∧
  display w s u (mkChart name commits1) = display w s u (mkChart name commits2).
Proof.
  intros Hp.
  assert (∀ now, aggregate now commits1 = aggregate now commits2) as Hagg
    by (intros now; by apply foldl_agg_step_perm).
  split; [done|]. split.
  - intros now order. unfold display_data. by rewrite Hagg.
  - unfold display, display_data. simpl. by rewrite Hagg.
Qed.

Lemma display_commit_order_irrelevant_witness :
  (∀ now, aggregate now [unixTime 0; unixTime 604800] =
          aggregate now [unixTime 604800; unixTime 0]) ∧
  (∀ now order, display_data now [unixTime 0; unixTime 604800] order =
                display_data now [unixTime 604800; unixTime 0] order) ∧
  display example_world example_schedule "urlA"
    (mkChart "A" [unixTime 0; unixTime 604800]) =
  display example_world example_schedule "urlA"
    (mkChart "A" [unixTime 604800; unixTime 0]).
Proof.
  apply (display_commit_order_irrelevant example_world example_schedule "urlA" "A"
           [unixTime 0; unixTime 604800] [unixTime 604800; unixTime 0]).
  apply Permutation_swap.
Defined.

Lemma plot_loop_data entries data m :
  (foldl plot_step (data, m) entries).1 = data ++ (point <$> entries).
Proof.
  revert data m. induction entries as [|kv entries IH]; intros data m; simpl.
  - by rewrite app_nil_r.
  - rewrite IH. by rewrite <- app_assoc.
Qed.

(** A chart is empty exactly when no commit is at or before [now]; its
    [p.Y.Max] is then 0. *)
Theorem display_data_empty (now : Time) (commits : list Time) (order : list Z) :
  range_order (aggregate now commits) order →
  ((display_data now commits order).1 = [] ↔
   Forall (λ dt, Before now dt = true) commits) ∧
  (Forall (λ dt, Before now dt = true) commits →
   display_data now commits order = ([], S754_zero false)).
Proof.
  intros Hord.
  assert (Forall (λ dt, Before now dt = true) commits → aggregate now commits = ∅) as Hempty.
  { intros Hall. rewrite aggregate_filter.
    replace (filter (λ dt, Before now dt = false) commits) with (@nil Time); [done|].
    symmetry. clear Hord. induction Hall as [|dt l Hdt _ IH]; [done|].
    rewrite filter_cons, decide_False by congruence. done. }
  assert (aggregate now commits = ∅ → display_data now commits order = ([], S754_zero false))
    as Hdata.
  { intros Hagg. unfold display_data. rewrite Hagg.
    replace (range_entries (∅ : gmap Z Z) order) with (@nil (Z * Z)); [done|].
    unfold range_entries. clear Hord. induction order as [|k l IH]; [done|]. simpl.
    by rewrite lookup_empty. }
  split; [|by intros Hall; apply Hdata, Hempty].
  split; [|by intros Hall; rewrite Hdata by auto].
  intros Hnil. apply Forall_forall. intros dt Hin.
  destruct (Before now dt) eqn:Hb; [done|]. exfalso.
  assert (is_Some (aggregate now commits !! bucket dt)) as [c Hc].
  { apply list_elem_of_split in Hin as (l1 & l2 & ->).
    unfold aggregate. rewrite foldl_app. simpl. apply foldl_agg_step_dom.
    unfold agg_step. rewrite Hb, lookup_insert_eq. by eexists. }
  assert ((bucket dt, c) ∈ range_entries (aggregate now commits) order) as Hent.
  { apply range_entries_elem. split; [|done].
    apply (range_order_elem (aggregate now commits)); [done|by eexists]. }
  unfold display_data, plot_loop in Hnil.
  pose proof (plot_loop_data (range_entries (aggregate now commits) order) []
                (S754_zero false)) as Hloop.
  destruct (foldl plot_step ([], S754_zero false)
              (range_entries (aggregate now commits) order)) as [data maxY].
  simpl in *. subst data.
  pose proof (sort_slice_perm less_X (point <$> range_entries (aggregate now commits) order))
    as Hperm.
  rewrite Hnil in Hperm. symmetry in Hperm. apply Permutation_nil_r in Hperm.
  apply fmap_nil_inv in Hperm. rewrite Hperm in Hent. by apply not_elem_of_nil in Hent.
Qed.

Lemma display_data_empty_witness :
  ((display_data (unixTime 0) [unixTime 5] []).1 = [] ↔
   Forall (λ dt, Before (unixTime 0) dt = true) [unixTime 5]) ∧
  (Forall (λ dt, Before (unixTime 0) dt = true) [unixTime 5] →
   display_data (unixTime 0) [unixTime 5] [] = ([], S754_zero false)).
Proof.
  apply (display_data_empty (unixTime 0) [unixTime 5] []).
  unfold range_order. vm_compute. reflexivity.
Defined.

(** ** Axis ticks *)


Lemma tick_at_int min i :
  Z.abs min < 2 ^ 53 → 0 ≤ i → i * GroupSize < 2 ^ 53 →
  Z.abs (min + i * GroupSize) < 2 ^ 53 →
  tick_at (f64_of_int min) i = spec_tick min i.
Proof.
  intros Hmin Hi Hiw Hsum. unfold tick_at, spec_tick, GroupSizeF.
  week_size HW.
  rewrite f64_mul_int by lia. rewrite f64_add_int by lia.
  rewrite Z.rem_mod_nonneg by lia. do 2 f_equal. lia.
Qed.

(** On a range from one bucket start to another the generator computes
    exactly. *)
Lemma Ticker_aligned a k :
  0 ≤ k → - 2 ^ 52 < a * GroupSize → (a + k) * GroupSize < 2 ^ 52 →
  Ticker (f64_of_int (a * GroupSize)) (f64_of_int ((a + k) * GroupSize)) =
    Some (Returned (spec_tick (a * GroupSize) <$> seqZ 0 k)).
Proof.
  intros Hk Hlo Hhi. week_size HW.
  unfold Ticker. rewrite f64_sub_int by lia.
  replace ((a + k) * GroupSize - a * GroupSize) with (k * GroupSize) by lia.
  unfold GroupSizeF. rewrite f64_div_int by lia.
  rewrite int_of_f64_of_int by lia.
  destruct (Z.ltb_spec k 0); [lia|]. do 2 f_equal.
  apply list_fmap_ext. intros j i Hi.
  apply lookup_seqZ in Hi as [-> Hj].
  apply tick_at_int; lia.
Qed.





(** ** Points and ticks together *)

Lemma sorted_last (l : list Z) y :
  StronglySorted Z.lt l → last l = Some y → ∀ x, x ∈ l → x ≤ y.
Proof.
  induction 1 as [|a l Hs IH Ha]; intros Hlast x Hx; [done|].
  destruct l as [|b l'].
  - simpl in Hlast. injection Hlast as <-. apply list_elem_of_singleton in Hx. lia.
  - change (last (a :: b :: l')) with (last (b :: l')) in Hlast.
    apply elem_of_cons in Hx as [->|Hx]; [|by apply IH].
    rewrite Forall_forall in Ha. apply Z.lt_le_incl, Ha.
    apply list_elem_of_lookup. exists (length l'). rewrite <- Hlast.
    by rewrite last_lookup.
Qed.

Lemma sorted_head (l : list Z) y :
  StronglySorted Z.lt l → head l = Some y → ∀ x, x ∈ l → y ≤ x.
Proof.
  intros Hs Hh x Hx. destruct l as [|a l]; [done|]. injection Hh as ->.
  apply StronglySorted_inv in Hs as [_ Ha].
  apply elem_of_cons in Hx as [->|Hx]; [lia|].
  rewrite Forall_forall in Ha. by apply Z.lt_le_incl, Ha.
Qed.

(** The ticks under the points.  For commits within 2^52 seconds of the
    epoch, on the range from the first to the last point of a chart the
    tick generator returns one tick a week, from the first point on and up
    to, but not including, the last: every point lies on a whole number of
    weeks from the first, and all of them but the last have a tick. *)
Theorem ticks_under_points (now : Time) (commits : list Time) (order : list Z)
    (data : list XY) (maxY : float64) (p0 p1 : XY) :
  range_order (aggregate now commits) order →
  Z.of_nat (length commits) < 2 ^ 53 →
  Forall (λ dt, Z.abs (Unix dt) < 2 ^ 52) commits →
  display_data now commits order = (data, maxY) →
  head data = Some p0 →
  last data = Some p1 →
  ∃ b0 k,
    0 ≤ k ∧
    X p0 = f64_of_int b0 ∧
    X p1 = f64_of_int (b0 + k * GroupSize) ∧
    Ticker (X p0) (X p1) = Some (Returned (spec_tick b0 <$> seqZ 0 k)) ∧
    (∀ p, p ∈ data →
       ∃ i, 0 ≤ i ≤ k ∧ X p = f64_of_int (b0 + i * GroupSize) ∧ (i = k ↔ p = p1)) ∧
    (∀ i, 0 ≤ i < k → f64_lt (Value (spec_tick b0 i)) (X p1) = true).
Proof.
  intros Hord Hlen Hall Hdata Hhead Hlast. week_size HW.
  assert (Forall (λ dt, Z.abs (Unix dt) < 2 ^ 53) commits) as Hall53.
  { eapply Forall_impl; [exact Hall|]. simpl. intros dt Hdt. lia. }
  destruct (display_data_spec now commits order Hord Hlen Hall53)
    as (pairs & Heq & _ & Hsorted & Hmem).
  rewrite Hdata in Heq. injection Heq as -> _.
  assert (∀ b c, (b, c) ∈ pairs →
            ∃ a, b = a * GroupSize ∧ - 2 ^ 52 < a * GroupSize < 2 ^ 52) as Hweek.
  { intros b c Hin. apply Hmem in Hin. rewrite aggregate_lookup in Hin by lia.
    destruct (decide (0 < count_in now commits b)) as [Hpos|]; [|done].
    destruct (count_in_pos_elem _ _ _ Hpos) as (dt & Hdt & _ & <-).
    exists (Z.quot (Unix dt) GroupSize). split; [apply bucket_quot|].
    rewrite <- bucket_quot. pose proof (bucket_abs dt).
    rewrite Forall_forall in Hall. specialize (Hall dt Hdt). simpl in Hall. lia. }
  rewrite fmap_last in Hlast.
  destruct (last pairs) as [[b1 c1]|] eqn:Hl1; [|done]. injection Hlast as <-.
  destruct pairs as [|[b0 c0] rest] eqn:Hpairs; [done|]. injection Hhead as <-.
  rewrite <- Hpairs in *.
  assert ((b0, c0) ∈ pairs) as Hin0 by (rewrite Hpairs; left).
  assert ((b1, c1) ∈ pairs) as Hin1.
  { apply list_elem_of_lookup. exists (pred (length pairs)). by rewrite <- last_lookup. }
  assert (∀ b c, (b, c) ∈ pairs → b0 ≤ b ≤ b1) as Hbetween.
  { intros b c Hin. assert (b ∈ pairs.*1) as Hb.
    { apply list_elem_of_fmap. by exists (b, c). }
    split.
    - apply (sorted_head pairs.*1); [done| |done]. by rewrite Hpairs.
    - apply (sorted_last pairs.*1); [done| |done]. by rewrite fmap_last, Hl1. }
  destruct (Hweek _ _ Hin0) as (a0 & -> & Ha0).
  destruct (Hweek _ _ Hin1) as (a1 & -> & Ha1).
  pose proof (Hbetween _ _ Hin0) as [_ H01].
  exists (a0 * GroupSize), (a1 - a0). simpl.
  replace (a0 * GroupSize + (a1 - a0) * GroupSize) with (a1 * GroupSize) by lia.
  split; [lia|]. split; [done|]. split; [done|]. split; [|split].
  - replace (a1 * GroupSize) with ((a0 + (a1 - a0)) * GroupSize) by lia.
    apply Ticker_aligned; lia.
  - intros p Hp. apply list_elem_of_fmap in Hp as ([b c] & -> & Hin).
    destruct (Hweek _ _ Hin) as (a & -> & Ha). pose proof (Hbetween _ _ Hin) as [Hlo Hhi].
    exists (a - a0). split; [lia|]. split; [simpl; f_equal; lia|].
    split.
    + intros Hk. assert (a = a1) as -> by lia.
      apply Hmem in Hin, Hin1. rewrite Hin in Hin1. by injection Hin1 as ->.
    + intros Heq. unfold point in Heq. simpl in Heq. injection Heq as Hx _.
      assert (int_of_f64 (f64_of_int (a * GroupSize)) =
              int_of_f64 (f64_of_int (a1 * GroupSize))) as Hi by (by rewrite Hx).
      rewrite !int_of_f64_of_int in Hi by lia. injection Hi as Hi. lia.
  - intros i Hi. rewrite f64_lt_of_int by lia. apply Z.ltb_lt. lia.
Qed.

Lemma ticks_under_points_witness :
  ∃ b0 k,
    0 ≤ k ∧
    X (point (0, 2)) = f64_of_int b0 ∧
    X (point (604800, 2)) = f64_of_int (b0 + k * GroupSize) ∧
    Ticker (X (point (0, 2))) (X (point (604800, 2))) =
      Some (Returned (spec_tick b0 <$> seqZ 0 k)) ∧
    (∀ p, p ∈ [point (0, 2); point (604800, 2)] →
       ∃ i, 0 ≤ i ≤ k ∧ X p = f64_of_int (b0 + i * GroupSize) ∧
            (i = k ↔ p = point (604800, 2))) ∧
    (∀ i, 0 ≤ i < k → f64_lt (Value (spec_tick b0 i)) (X (point (604800, 2))) = true).
Proof.
  apply (ticks_under_points scenario_now scenario_commits [604800; 0]
           [point (0, 2); point (604800, 2)] (f64_of_int 2)).
  - unfold range_order. vm_compute. reflexivity.
  - vm_compute. reflexivity.
  - repeat constructor.
  - by vm_compute.
  - reflexivity.
  - reflexivity.
Defined.

(** A reversed range.  When [max] lies one week or more below [min], both
    bucket starts within 2^52 of the epoch, the length given to [make] is
    negative and the tick generator panics. *)
Theorem Ticker_reversed_range_panics (a k : Z) :
  0 < k → - 2 ^ 52 < (a - k) * GroupSize → a * GroupSize < 2 ^ 52 →
  Ticker (f64_of_int (a * GroupSize)) (f64_of_int ((a - k) * GroupSize)) = Some Panicked.
Proof.
  intros Hk Hlo Hhi. week_size HW.
  unfold Ticker. rewrite f64_sub_int by lia.
  replace ((a - k) * GroupSize - a * GroupSize) with (- (k * GroupSize)) by lia.
  unfold GroupSizeF. rewrite f64_div_int_neg by lia.
  rewrite int_of_f64_of_int by lia.
  by destruct (Z.ltb_spec (- k) 0); [|lia].
Qed.

Lemma Ticker_reversed_range_panics_witness :
  Ticker (f64_of_int (2635 * GroupSize)) (f64_of_int ((2635 - 27) * GroupSize)) =
    Some Panicked.
Proof.
  apply (Ticker_reversed_range_panics 2635 27); vm_compute; done.
Defined.

(** ** [cleanFilename] *)

(** C7, as stated, fails: the space after the colon becomes an underscore,
    not a hyphen. *)
Lemma cleanFilename_counterexample :
  cleanFilename "DDE Session Shell: v1/2" ≠ "DDE_Session_Shell--v1-2"%string.
Proof. vm_compute. discriminate. Qed.

Lemma Replace_get table s n :
  String.get n (Replace table s) = replace_byte table <$> String.get n s.
Proof.
  revert n. induction s as [|c s IH]; intros n; simpl; [done|].
  destruct n as [|n]; [done|]. apply IH.
Qed.

(** C7, as amended.  The name "DDE Session Shell: v1/2" is cleaned to
    "DDE_Session_Shell-_v1-2"; in general the cleaned name has, byte for
    byte, an underscore for a space, a hyphen for a colon, a backslash or
    a slash, and every other byte unchanged. *)
Theorem cleanFilename_spec :
  cleanFilename "DDE Session Shell: v1/2" = "DDE_Session_Shell-_v1-2"%string ∧
  (∀ s n, String.get n (cleanFilename s) = replace_byte cleaner <$> String.get n s) ∧
  (∀ s, String.length (cleanFilename s) = String.length s) ∧
  replace_byte cleaner " " = "_"%char ∧
  replace_byte cleaner ":" = "-"%char ∧
  replace_byte cleaner "\" = "-"%char ∧
  replace_byte cleaner "/" = "-"%char ∧
  (∀ c, c ≠ " "%char → c ≠ ":"%char → c ≠ "\"%char → c ≠ "/"%char →
     replace_byte cleaner c = c).
Proof.
  split; [reflexivity|]. split; [intros s n; apply Replace_get|].
  split.
  { intros s. unfold cleanFilename. induction s as [|c s IH]; simpl; [done|by rewrite IH]. }
  repeat (split; [reflexivity|]).
  intros c H1 H2 H3 H4. simpl.
  apply Ascii.eqb_neq in H1, H2, H3, H4. by rewrite H1, H2, H3, H4.
Qed.

(** Cleaning a name twice is cleaning it once. *)
Theorem cleanFilename_idempotent (name : string) :
  cleanFilename (cleanFilename name) = cleanFilename name.
Proof.
  unfold cleanFilename. induction name as [|c s IH]; simpl; [done|].
  rewrite IH. f_equal.
  destruct (c =? " ")%char eqn:H1; [done|]. destruct (c =? ":")%char eqn:H2; [done|].
  destruct (c =? "\")%char eqn:H3; [done|]. destruct (c =? "/")%char eqn:H4; [done|].
  by rewrite H1, H2, H3, H4.
Qed.

(** The cleaned name holds no space, colon, backslash or slash, and so no
    path separator; cleaning changes a name exactly when the name holds
    one of them. *)
Theorem cleanFilename_output_clean (name : string) :
  Forall (λ c, unclean c = false) (bytes (cleanFilename name)) ∧
  (cleanFilename name = name ↔ Forall (λ c, unclean c = false) (bytes name)).
Proof.
  unfold cleanFilename. induction name as [|c s [IH1 IH2]]; simpl.
  - split; [constructor|]. split; [constructor|done].
  - assert (unclean (replace_byte cleaner c) = false ∧
            (replace_byte cleaner c = c ↔ unclean c = false)) as [Hc1 Hc2].
    { unfold unclean. simpl.
      destruct (c =? " ")%char eqn:H1.
      { apply Ascii.eqb_eq in H1 as ->. split; [done|]. split; done. }
      destruct (c =? ":")%char eqn:H2.
      { apply Ascii.eqb_eq in H2 as ->. split; [done|]. split; done. }
      destruct (c =? "\")%char eqn:H3.
      { apply Ascii.eqb_eq in H3 as ->. split; [done|]. split; done. }
      destruct (c =? "/")%char eqn:H4.
      { apply Ascii.eqb_eq in H4 as ->. split; [done|]. split; done. }
      rewrite H1, H2, H3, H4. done. }
    split; [by constructor|]. rewrite Forall_cons. split.
    + intros [= Hc Hs]. split; [by apply Hc2|by apply IH2].
    + intros [Hc Hs]. apply Hc2 in Hc. apply IH2 in Hs. by f_equal.
Qed.
